(** * rapidjson_wrapper: typed accessors, views and numeric text parsing

    A shallow embedding of [src/json/parse.h] and of the accessor and view
    layer of [src/json/json_value.h] ([ValueRef], [ArrayRef], [ObjectRef]),
    together with the properties of the specification that concern them.

    Conventions.
    - Byte strings ([std::string], [const char*] buffers) are [string]s; a
      byte is an [ascii], and the NUL byte may occur inside a [std::string].
    - Machine integers are [Z] with the wrap-around of each conversion
      written out ([static_cast_int]).  The data model is LP64: [long] and
      [unsigned long] are 64 bits wide.
    - IEEE-754 values are [spec_float] (binary64 for [double], binary32 for
      [float]), rounded with the library's [binary_normalize].
    - A call that may throw returns a [result]; [Throw e] carries the
      [std::runtime_error]. *)

From Stdlib Require Import ZArith List String Ascii Bool Lia.
From Stdlib Require Import Floats.SpecFloat.
From Stdlib Require Import DecimalString.
From Stdlib Require DecimalPos.
Import ListNotations.

Local Open Scope string_scope.
Local Open Scope Z_scope.

(** ** [std::numeric_limits] and integral conversions *)

Module limits.

(** The fixed-width integer types the accessor templates are instantiated
    with.  [char] and [bool] have overloads of their own. *)
Inductive IntTy : Type :=
| Int8 | Int16 | Int32 | Int64
| UInt8 | UInt16 | UInt32 | UInt64.

Definition bits (t : IntTy) : Z :=
  match t with
  | Int8 | UInt8 => 8
  | Int16 | UInt16 => 16
  | Int32 | UInt32 => 32
  | Int64 | UInt64 => 64
  end.

(** [std::is_signed<T>::value] *)
Definition is_signed (t : IntTy) : bool :=
  match t with
  | Int8 | Int16 | Int32 | Int64 => true
  | UInt8 | UInt16 | UInt32 | UInt64 => false
  end.

(** [sizeof(T)] *)
Definition sizeof (t : IntTy) : Z := bits t / 8.

(** [std::numeric_limits<T>::min()] *)
Definition min (t : IntTy) : Z :=
  if is_signed t then - 2 ^ (bits t - 1) else 0.

(** [std::numeric_limits<T>::max()] *)
Definition max (t : IntTy) : Z :=
  if is_signed t then 2 ^ (bits t - 1) - 1 else 2 ^ bits t - 1.

Definition in_range (t : IntTy) (z : Z) : bool :=
  (min t <=? z) && (z <=? max t).

(** Two's complement reduction to [w] bits. *)
Definition wrap_unsigned (w z : Z) : Z := z mod 2 ^ w.

Definition wrap_signed (w z : Z) : Z :=
  (z + 2 ^ (w - 1)) mod 2 ^ w - 2 ^ (w - 1).

(** [static_cast<T>(z)] for an integral source value [z]. *)
Definition static_cast_int (t : IntTy) (z : Z) : Z :=
  if is_signed t then wrap_signed (bits t) z else wrap_unsigned (bits t) z.

Definition LONG_MIN : Z := min Int64.
Definition LONG_MAX : Z := max Int64.
Definition ULONG_MAX : Z := max UInt64.

End limits.

(** ** The C library routines used by [parse.h] *)

Module cstdlib.

Definition NUL : ascii := Ascii.zero.

(** [strlen]: the number of bytes before the first NUL.  A [std::string]
    read through [c_str()] is seen up to there. *)
Fixpoint strlen (s : string) : nat :=
  match s with
  | EmptyString => O
  | String c rest => if Ascii.eqb c NUL then O else S (strlen rest)
  end.

(** The bytes a reader of a [const char*] sees; this is also what the
    [std::string] built from a [const char*] holds. *)
Fixpoint c_str (s : string) : string :=
  match s with
  | EmptyString => EmptyString
  | String c rest =>
      if Ascii.eqb c NUL then EmptyString else String c (c_str rest)
  end.

(** [p[i]] for a NUL-terminated buffer holding [s]: the terminator is read
    at [i = length s]. *)
Definition char_at (s : string) (i : nat) : ascii :=
  match String.get i s with
  | Some c => c
  | None => NUL
  end.

(** [isspace] in the "C" locale. *)
Definition isspace (c : ascii) : bool :=
  let n := N_of_ascii c in
  (N.eqb n 32 || (N.leb 9 n && N.leb n 13))%bool.

Definition isdigit (c : ascii) : bool :=
  let n := N_of_ascii c in (N.leb 48 n && N.leb n 57)%bool.

Definition digit_value (c : ascii) : Z := Z.of_N (N_of_ascii c) - 48.

(** Leading white space: how many bytes are skipped, and what is left. *)
Fixpoint skip_space (s : string) : nat * string :=
  match s with
  | String c rest =>
      if isspace c then let '(n, r) := skip_space rest in (S n, r)
      else (O, s)
  | EmptyString => (O, s)
  end.

(** An optional sign: (negative?, bytes taken, what is left). *)
Definition take_sign (s : string) : bool * nat * string :=
  match s with
  | String "-" rest => (true, 1%nat, rest)
  | String "+" rest => (false, 1%nat, rest)
  | _ => (false, O, s)
  end.

(** The longest run of decimal digits: its value and its length. *)
Fixpoint take_digits (s : string) (acc : Z) : Z * nat :=
  match s with
  | String c rest =>
      if isdigit c then
        let '(v, n) := take_digits rest (10 * acc + digit_value c) in
        (v, S n)
      else (acc, O)
  | EmptyString => (acc, O)
  end.

(** What a conversion routine hands back: the value, the offset of [end]
    from the start of the buffer, and whether [errno] was set to
    [ERANGE]. *)
Record conversion (A : Type) : Type := mkConversion {
  conv_value : A;
  conv_end : nat;
  conv_erange : bool
}.
Arguments mkConversion {A} _ _ _.
Arguments conv_value {A} _.
Arguments conv_end {A} _.
Arguments conv_erange {A} _.

(** [strtol(nptr, &end, 10)].  Without a digit no conversion is performed:
    [end == nptr] and the value is 0.  A value outside [long] is clamped
    and reported through [ERANGE]; the digits are consumed all the same. *)
Definition strtol (nptr : string) : conversion Z :=
  let '(nws, s1) := skip_space nptr in
  let '(neg, nsign, s2) := take_sign s1 in
  let '(magnitude, ndigits) := take_digits s2 0 in
  match ndigits with
  | O => mkConversion 0 O false
  | S _ =>
      let v := if neg then - magnitude else magnitude in
      let end_ := (nws + nsign + ndigits)%nat in
      if v <? limits.LONG_MIN then mkConversion limits.LONG_MIN end_ true
      else if limits.LONG_MAX <? v then mkConversion limits.LONG_MAX end_ true
      else mkConversion v end_ false
  end.

(** [strtoul(nptr, &end, 10)].  A leading minus sign is accepted: the
    magnitude is converted and then negated in [unsigned long]. *)
Definition strtoul (nptr : string) : conversion Z :=
  let '(nws, s1) := skip_space nptr in
  let '(neg, nsign, s2) := take_sign s1 in
  let '(magnitude, ndigits) := take_digits s2 0 in
  match ndigits with
  | O => mkConversion 0 O false
  | S _ =>
      let end_ := (nws + nsign + ndigits)%nat in
      if limits.ULONG_MAX <? magnitude
      then mkConversion limits.ULONG_MAX end_ true
      else
        let v := if neg then limits.wrap_unsigned 64 (- magnitude)
                 else magnitude in
        mkConversion v end_ false
  end.

(** [std::to_string] of an integer: its decimal digits, with a minus sign
    when negative. *)
Definition to_string_int (z : Z) : string :=
  NilZero.string_of_int (Z.to_int z).

(** *** [strtod]

    [strtod] is a parameter of the parser.  To run the parser, the routine
    is given here as the C standard describes it: white space, an optional
    sign, then a decimal number (digits with an optional radix character,
    then an optional exponent), a hexadecimal number ([0x], hexadecimal
    digits with an optional radix character, then an optional binary
    exponent), [inf] or [infinity], or [nan] with an optional parenthesised
    sequence; letters in any case.  The value is correctly rounded, to
    nearest even, in binary64.  The radix character is the one of the
    process locale ([LC_NUMERIC]): a point in the "C" locale, a comma in
    many others.  [ERANGE] is reported on overflow, and on underflow when
    the result is not exact, which is the choice of glibc on x86-64 where
    the standard leaves one.  (On a hexadecimal mantissa of more than 53
    bits and a subnormal result, some releases of glibc lose a bit and
    depart from the correctly rounded value given here.) *)

(** A run of digits continuing the number [acc]: the number, the length of
    the run, and the text after it. *)
Fixpoint scan_digits (s : string) (acc : Z) : Z * nat * string :=
  match s with
  | String c rest =>
      if isdigit c then
        let '(v, n, r) := scan_digits rest (10 * acc + digit_value c) in
        (v, S n, r)
      else (acc, O, s)
  | EmptyString => (acc, O, s)
  end.

(** [tolower] in the "C" locale. *)
Definition tolower (c : ascii) : ascii :=
  let n := N_of_ascii c in
  if (N.leb 65 n && N.leb n 90)%bool then ascii_of_N (n + 32) else c.

Definition isxdigit (c : ascii) : bool :=
  let n := N_of_ascii (tolower c) in
  (isdigit c || (N.leb 97 n && N.leb n 102))%bool.

Definition xdigit_value (c : ascii) : Z :=
  if isdigit c then digit_value c
  else Z.of_N (N_of_ascii (tolower c)) - 87.

Fixpoint scan_xdigits (s : string) (acc : Z) : Z * nat * string :=
  match s with
  | String c rest =>
      if isxdigit c then
        let '(v, n, r) := scan_xdigits rest (16 * acc + xdigit_value c) in
        (v, S n, r)
      else (acc, O, s)
  | EmptyString => (acc, O, s)
  end.

(** The exponent part after the mantissa, if one is there: [marker] is
    [e] or [p]; its value and its length.  A marker that no digit follows
    is not part of the number. *)
Definition scan_exponent (marker : ascii) (s : string) : Z * nat :=
  match s with
  | String c rest =>
      if Ascii.eqb (tolower c) marker then
        let '(neg, nsign, s1) := take_sign rest in
        let '(e, n, _) := scan_digits s1 0 in
        match n with
        | O => (0, O)
        | S _ => (if neg then - e else e, (1 + nsign + n)%nat)
        end
      else (0, O)
  | EmptyString => (0, O)
  end.

(** A word at the start of the text, letters in any case: what is left
    after it. *)
Fixpoint scan_word (word s : string) : option string :=
  match word with
  | EmptyString => Some s
  | String w word' =>
      match s with
      | String c rest =>
          if Ascii.eqb (tolower c) w then scan_word word' rest else None
      | EmptyString => None
      end
  end.

(** The sequence in the parentheses of [nan(...)]: digits, letters and
    underscores. *)
Fixpoint scan_n_chars (s : string) : nat * string :=
  match s with
  | String c rest =>
      let n := N_of_ascii (tolower c) in
      if (isdigit c || (N.leb 97 n && N.leb n 122) || N.eqb n 95)%bool
      then let '(k, r) := scan_n_chars rest in (S k, r)
      else (O, s)
  | EmptyString => (O, s)
  end.

(** [M * 2 ^ E < B * 2 ^ F] *)
Definition below (M E B F : Z) : bool :=
  if E <=? F then M <? B * 2 ^ (F - E) else M * 2 ^ (E - F) <? B.

(** The number [M * 2 ^ E], [M] positive, rounded to nearest even in
    binary64, with the sign [neg], and whether [ERANGE] is set.  [exact]
    tells whether [M * 2 ^ E] is the number itself; when it is not, the
    number lies strictly between [(M - 1) * 2 ^ E] and [(M + 1) * 2 ^ E],
    [M] is odd and [E] is below [-1076].  A result is tiny when the number,
    rounded to 53 bits with no bound on the exponent, is below the least
    normal number [2 ^ -1022], which is when it is below
    [(2 ^ 54 - 1) * 2 ^ -1076]. *)
Definition round_binary (neg : bool) (M E : Z) (exact : bool)
    : spec_float * bool :=
  let d := binary_normalize 53 1024 (cond_Zopp neg M) E neg in
  let unchanged :=
    match d with
    | S754_finite _ m e =>
        exact && negb (below (Zpos m) e M E) && negb (below M E (Zpos m) e)
    | _ => false
    end in
  let tiny := below M E (2 ^ 54 - 1) (- 1076) in
  let erange :=
    match d with
    | S754_infinity _ => true
    | _ => tiny && negb unchanged
    end in
  (d, erange).

(** [m * 10 ^ e]; for a negative [e] a quotient is taken with enough bits
    and a sticky bit. *)
Definition round_decimal (neg : bool) (m e : Z) : spec_float * bool :=
  if m =? 0 then (S754_zero neg, false)
  else if 0 <=? e then round_binary neg (m * 10 ^ e) 0 true
  else
    let d := 10 ^ (- e) in
    let sh := 1200 + Z.log2 d in
    let q := (m * 2 ^ sh) / d in
    if (m * 2 ^ sh) mod d =? 0
    then round_binary neg q (- sh) true
    else round_binary neg (2 * q + 1) (- sh - 1) false.

(** A mantissa in the given base, with an optional radix character: its
    digits read as one integer, how many of them stand after the radix
    character, the length, and the text after it.  Without a digit there
    is no mantissa. *)
Definition scan_mantissa
    (scan : string -> Z -> Z * nat * string) (radix : ascii) (s : string)
    : option (Z * nat * nat * string) :=
  let '(int_part, n_int, s1) := scan s 0 in
  let '(mantissa, n_point, n_frac, s2) :=
    match s1 with
    | String c rest =>
        if Ascii.eqb c radix then
          let '(m, n, r) := scan rest int_part in
          match n_int, n with
          | O, O => (int_part, O, O, s1)
          | _, _ => (m, 1%nat, n, r)
          end
        else (int_part, O, O, s1)
    | EmptyString => (int_part, O, O, s1)
    end in
  match (n_int + n_frac)%nat with
  | O => None
  | S _ => Some (mantissa, n_frac, (n_int + n_point + n_frac)%nat, s2)
  end.

(** The number after white space and sign: its value, whether [ERANGE] is
    set, and its length; [None] when no form of the subject sequence is
    there. *)
Definition scan_number (radix : ascii) (neg : bool) (s : string)
    : option (spec_float * bool * nat) :=
  match scan_word "inf" s with
  | Some rest =>
      match scan_word "inity" rest with
      | Some _ => Some (S754_infinity neg, false, 8%nat)
      | None => Some (S754_infinity neg, false, 3%nat)
      end
  | None =>
  match scan_word "nan" s with
  | Some rest =>
      match rest with
      | String "(" inner =>
          let '(k, r) := scan_n_chars inner in
          match r with
          | String ")" _ => Some (S754_nan, false, (3 + 1 + k + 1)%nat)
          | _ => Some (S754_nan, false, 3%nat)
          end
      | _ => Some (S754_nan, false, 3%nat)
      end
  | None =>
  let hexadecimal :=
    match scan_word "0x" s with
    | Some rest =>
        match scan_mantissa scan_xdigits radix rest with
        | Some (mantissa, n_frac, n, s1) =>
            let '(e, n_exp) := scan_exponent "p" s1 in
            let '(d, erange) :=
              if mantissa =? 0 then (S754_zero neg, false)
              else round_binary neg mantissa (e - 4 * Z.of_nat n_frac)
                     true in
            Some (d, erange, (2 + n + n_exp)%nat)
        | None => None
        end
    | None => None
    end in
  match hexadecimal with
  | Some r => Some r
  | None =>
      match scan_mantissa scan_digits radix s with
      | Some (mantissa, n_frac, n, s1) =>
          let '(e, n_exp) := scan_exponent "e" s1 in
          let '(d, erange) :=
            round_decimal neg mantissa (e - Z.of_nat n_frac) in
          Some (d, erange, (n + n_exp)%nat)
      | None => None
      end
  end
  end
  end.

(** [strtod(nptr, &end)] in a locale whose radix character is [radix].
    Without a number no conversion is performed: [end == nptr] and the
    value is zero. *)
Definition strtod_locale (radix : ascii) (nptr : string)
    : conversion spec_float :=
  let '(nws, s1) := skip_space nptr in
  let '(neg, nsign, s2) := take_sign s1 in
  match scan_number radix neg s2 with
  | Some (d, erange, n) => mkConversion d (nws + nsign + n)%nat erange
  | None => mkConversion (S754_zero false) O false
  end.

(** [strtod] in the "C" locale. *)
Definition strtod_C : string -> conversion spec_float := strtod_locale ".".

End cstdlib.

(** ** IEEE-754 conversions *)

Module ieee.

(** [static_cast<double>(z)] of an integer, rounded to nearest even. *)
Definition double_of_Z (z : Z) : spec_float :=
  binary_normalize 53 1024 z 0 false.

(** [static_cast<float>(z)] of an integer. *)
Definition float_of_Z (z : Z) : spec_float :=
  binary_normalize 24 128 z 0 false.

(** [static_cast<float>(d)] of a [double]. *)
Definition float_of_double (d : spec_float) : spec_float :=
  match d with
  | S754_finite s m e => binary_normalize 24 128 (cond_Zopp s (Zpos m)) e s
  | _ => d
  end.

(** [d != 0.0], the conversion of a [double] to [bool] (a NaN is true). *)
Definition nonzero (d : spec_float) : bool :=
  match d with
  | S754_zero _ => false
  | _ => true
  end.

(** The integral part of a finite value, rounded toward zero. *)
Definition trunc (d : spec_float) : option Z :=
  match d with
  | S754_zero _ => Some 0
  | S754_finite s m e =>
      Some (cond_Zopp s (if 0 <=? e then Zpos m * 2 ^ e
                         else Zpos m / 2 ^ (- e)))
  | S754_infinity _ | S754_nan => None
  end.

Definition zero : spec_float := S754_zero false.
Definition one_double : spec_float := double_of_Z 1.
Definition one_float : spec_float := float_of_Z 1.

End ieee.

(** ** The tree engine: what the wrapper uses of [rapidjson::Value] *)

Module rapidjson.

#[local] Set Warnings "-register-all".

(** A node.  An integer node keeps a 64-bit payload; each integer
    constructor of the engine and its reader set the [kIntFlag],
    [kUintFlag], [kInt64Flag] and [kUint64Flag] bits from the range the
    payload lies in, so the flags are functions of the payload.  A node
    built from a [double] carries [kDoubleFlag] alone.  The members of an
    object are kept in insertion order, and names may repeat.

    A string node is a pointer and a length.  [kString s] owns its bytes
    [s] (the engine's copying [SetString], its reader): a NUL byte follows
    them in the buffer.  [kConstString s beyond] is what the non-copying
    [SetString(ptr, length)] builds: it borrows the range [s] of a buffer
    of the caller, in which the bytes [beyond] follow the range, up to the
    first NUL of that buffer.  Reading the node by its length gives [s] in
    both cases; reading it by the pointer alone sees [beyond] too. *)
Inductive Value : Type :=
| kNull
| kBool (b : bool)
| kNumberInt (i : Z)
| kNumberDouble (d : spec_float)
| kString (s : string)
| kConstString (s : string) (beyond : string)
| kArray (elements : list Value)
| kObject (members : list (string * Value)).

Definition IsNull (v : Value) : bool :=
  match v with kNull => true | _ => false end.
Definition IsBool (v : Value) : bool :=
  match v with kBool _ => true | _ => false end.
Definition IsNumber (v : Value) : bool :=
  match v with kNumberInt _ | kNumberDouble _ => true | _ => false end.
Definition IsDouble (v : Value) : bool :=
  match v with kNumberDouble _ => true | _ => false end.
Definition IsString (v : Value) : bool :=
  match v with kString _ | kConstString _ _ => true | _ => false end.
Definition IsArray (v : Value) : bool :=
  match v with kArray _ => true | _ => false end.
Definition IsObject (v : Value) : bool :=
  match v with kObject _ => true | _ => false end.

Definition IsInt (v : Value) : bool :=
  match v with
  | kNumberInt i => limits.in_range limits.Int32 i
  | _ => false
  end.
Definition IsUint (v : Value) : bool :=
  match v with
  | kNumberInt i => limits.in_range limits.UInt32 i
  | _ => false
  end.
Definition IsInt64 (v : Value) : bool :=
  match v with
  | kNumberInt i => limits.in_range limits.Int64 i
  | _ => false
  end.
Definition IsUint64 (v : Value) : bool :=
  match v with
  | kNumberInt i => limits.in_range limits.UInt64 i
  | _ => false
  end.

(** The getters.  Each is to be called under its flag (the engine asserts
    it), and every call in the wrapper is; under the flag the payload is
    the value. *)
Definition GetBool (v : Value) : bool :=
  match v with kBool b => b | _ => false end.
Definition payload (v : Value) : Z :=
  match v with kNumberInt i => i | _ => 0 end.
Definition GetInt : Value -> Z := payload.
Definition GetUint : Value -> Z := payload.
Definition GetInt64 : Value -> Z := payload.
Definition GetUint64 : Value -> Z := payload.

(** [GetDouble] converts an integer payload. *)
Definition GetDouble (v : Value) : spec_float :=
  match v with
  | kNumberDouble d => d
  | kNumberInt i => ieee.double_of_Z i
  | _ => ieee.zero
  end.

(** [GetString] hands out the pointer: what is given here is the bytes
    that stand at it, up to the NUL that ends the buffer.  The first
    [GetStringLength] of them are the bytes of the node, NUL bytes
    included; in a borrowed range others may follow. *)
Definition GetString (v : Value) : string :=
  match v with
  | kString s => s
  | kConstString s beyond => s ++ beyond
  | _ => EmptyString
  end.
Definition GetStringLength (v : Value) : nat :=
  match v with
  | kString s => String.length s
  | kConstString s _ => String.length s
  | _ => O
  end.

(** The bytes of a string node.  The engine compares member names by
    them. *)
Definition bytes (v : Value) : string :=
  substring 0 (GetStringLength v) (GetString v).

Definition Size (v : Value) : nat :=
  match v with kArray l => List.length l | _ => O end.
Definition Empty (v : Value) : bool := Nat.eqb (Size v) 0.

Definition Members (v : Value) : list (string * Value) :=
  match v with kObject m => m | _ => [] end.
Definition MemberCount (v : Value) : nat := List.length (Members v).

(** A member iterator is a position in the member sequence; [MemberEnd] is
    the position after the last member. *)
Definition MemberEnd (v : Value) : nat := MemberCount v.

(** [FindMember]: the first member whose name has the bytes of [name]. *)
Fixpoint find_from (m : list (string * Value)) (name : string) : nat :=
  match m with
  | [] => O
  | (k, _) :: rest =>
      if String.eqb k name then O else S (find_from rest name)
  end.
Definition FindMember (v : Value) (name : string) : nat :=
  find_from (Members v) name.

Definition HasMember (v : Value) (name : string) : bool :=
  negb (Nat.eqb (FindMember v name) (MemberEnd v)).

(** [AddMember] appends, whatever the names already present. *)
Definition AddMember (v : Value) (name : string) (x : Value) : Value :=
  match v with
  | kObject m => kObject (m ++ [(name, x)])
  | _ => v
  end.

Definition PushBack (v : Value) (x : Value) : Value :=
  match v with
  | kArray l => kArray (l ++ [x])
  | _ => v
  end.

Definition SetArray (v : Value) : Value := kArray [].
Definition SetObject (v : Value) : Value := kObject [].

End rapidjson.

(** ** Target types of the accessor templates *)

(** [std::is_arithmetic<T>] apart from [char]. *)
Inductive Arith : Type :=
| TBool
| TInt (t : limits.IntTy)
| TFloat
| TDouble.

Inductive Target : Type :=
| TArith (a : Arith)
| TChar
| TConstCharPtr
| TString.

Definition arith_native (a : Arith) : Type :=
  match a with
  | TBool => bool
  | TInt _ => Z
  | TFloat | TDouble => spec_float
  end.

(** A [const char*] result is [None] for [nullptr], and otherwise the buffer
    it points to. *)
Definition native (T : Target) : Type :=
  match T with
  | TArith a => arith_native a
  | TChar => ascii
  | TConstCharPtr => option string
  | TString => string
  end.

(** The value [0] converted to [T]. *)
Definition zero (a : Arith) : arith_native a :=
  match a with
  | TBool => false
  | TInt _ => 0
  | TFloat | TDouble => ieee.zero
  end.

(** ** [parse.h] *)

Module detail.
Import cstdlib.

Section parse.

(** [common::lower_string], declared outside [src/]. *)
Variable lower_string : string -> string.

(** [strtod], with the process locale it reads. *)
Variable strtod : string -> conversion spec_float.

Definition empty (value : string) : bool :=
  match value with EmptyString => true | _ => false end.

(** [value.find("-") == std::string::npos] *)
Fixpoint find_minus_is_npos (value : string) : bool :=
  match value with
  | EmptyString => true
  | String c rest =>
      if Ascii.eqb c "-" then false else find_minus_is_npos rest
  end.

Definition parse_bool (value : string) : option bool :=
  if negb (empty value) then
    let lower_value_string := lower_string value in
    if (lower_value_string =? "true")%string
       || (lower_value_string =? "false")%string
    then Some ("true" =? lower_value_string)%string
    else None
  else None.

Definition parse_signed (t : limits.IntTy) (value : string) : option Z :=
  if negb (empty value) then
    let value_c_str := c_str value in
    let r := strtol value_c_str in
    let lvalue := conv_value r in
    if negb (Nat.eqb (conv_end r) 0)
       && Ascii.eqb NUL (char_at value_c_str (conv_end r))
       && (lvalue <=? limits.max t)
       && (limits.min t <=? lvalue)
       && negb (conv_erange r)
    then Some (limits.static_cast_int t lvalue)
    else None
  else None.

Definition parse_unsigned (t : limits.IntTy) (value : string) : option Z :=
  if negb (empty value) && find_minus_is_npos value then
    let value_c_str := c_str value in
    let r := strtoul value_c_str in
    let lvalue := conv_value r in
    if negb (Nat.eqb (conv_end r) 0)
       && Ascii.eqb NUL (char_at value_c_str (conv_end r))
       && (lvalue <=? limits.max t)
       && (limits.min t <=? lvalue)
       && negb (conv_erange r)
    then Some (limits.static_cast_int t lvalue)
    else None
  else None.

(** The floating-point overload; [to_T] is [static_cast<T>]. *)
Definition parse_floating (to_T : spec_float -> spec_float)
    (value : string) : option spec_float :=
  if negb (empty value) then
    let value_c_str := c_str value in
    let r := strtod value_c_str in
    if negb (Nat.eqb (conv_end r) 0)
       && Ascii.eqb NUL (char_at value_c_str (conv_end r))
       && negb (conv_erange r)
    then Some (to_T (conv_value r))
    else None
  else None.

(** Overload resolution of [parse<T>(value)]. *)
Definition parse (a : Arith) : string -> option (arith_native a) :=
  match a with
  | TBool => parse_bool
  | TInt t =>
      if limits.is_signed t then parse_signed t else parse_unsigned t
  | TFloat => parse_floating ieee.float_of_double
  | TDouble => parse_floating (fun d => d)
  end.

(** [parse<T>(value, default_value)] *)
Definition parse_default (a : Arith) (value : string)
    (default_value : arith_native a) : arith_native a :=
  match parse a value with
  | Some res => res
  | None => default_value
  end.

End parse.

End detail.

(** ** Failure *)

(** What a [std::runtime_error] carries: a literal text, or the text
    [detail::format] builds from a format string and the rendering
    [value.to_string(max_length)] of a node. *)
Inductive runtime_error : Type :=
| what (text : string)
| what_format (fmt : string) (value : rapidjson.Value) (max_length : N).

(** A call either returns or throws. *)
Inductive result (A : Type) : Type :=
| Ok (a : A)
| Throw (e : runtime_error).
Arguments Ok {A} _.
Arguments Throw {A} _.

(** ** [ValueRef]: typed accessors and rendering *)

Module ValueRef.
Import cstdlib rapidjson.

Section accessors.

Variable lower_string : string -> string.
Variable strtod : string -> conversion spec_float.

(** What a conversion of a [double] to an integral type yields when the
    truncated value is not representable (the language leaves it
    undefined; the platform decides). *)
Variable unrepresentable : spec_float -> Z.

(** [static_cast<T>] from each source type. *)
Definition cast_of_int (a : Arith) (z : Z) : arith_native a :=
  match a with
  | TBool => negb (z =? 0)
  | TInt t => limits.static_cast_int t z
  | TFloat => ieee.float_of_Z z
  | TDouble => ieee.double_of_Z z
  end.

Definition int_of_double (t : limits.IntTy) (d : spec_float) : Z :=
  match ieee.trunc d with
  | Some z =>
      if limits.in_range t z then z
      else limits.static_cast_int t (unrepresentable d)
  | None => limits.static_cast_int t (unrepresentable d)
  end.

Definition cast_of_double (a : Arith) (d : spec_float) : arith_native a :=
  match a with
  | TBool => ieee.nonzero d
  | TInt t => int_of_double t d
  | TFloat => ieee.float_of_double d
  | TDouble => d
  end.

Definition cast_of_bool (a : Arith) (b : bool) : arith_native a :=
  match a with
  | TBool => b
  | TInt _ => if b then 1 else 0
  | TFloat => if b then ieee.one_float else ieee.zero
  | TDouble => if b then ieee.one_double else ieee.zero
  end.

(** [static_cast<char>] of an integer keeps the low byte. *)
Definition char_of_int (z : Z) : ascii :=
  ascii_of_N (Z.to_N (limits.wrap_unsigned 8 z)).

Definition char_of_double (d : spec_float) : ascii :=
  match ieee.trunc d with
  | Some z =>
      if (0 <=? z) && (z <=? 127) then char_of_int z
      else char_of_int (unrepresentable d)
  | None => char_of_int (unrepresentable d)
  end.

(** [as<char>] *)
Definition as_char (value_ : Value) : ascii :=
  if IsNumber value_ then
    if IsInt value_ then char_of_int (GetInt value_)
    else if IsUint value_ then char_of_int (GetUint value_)
    else if IsInt64 value_ then char_of_int (GetInt64 value_)
    else if IsUint64 value_ then char_of_int (GetUint64 value_)
    else if IsDouble value_ then char_of_double (GetDouble value_)
    else " "%char
  else if IsString value_ && (0 <? GetStringLength value_)%nat then
    char_at (GetString value_) 0
  else " "%char.

(** [as<T>] for an arithmetic [T] other than [char].  A string node is
    handed to [detail::parse] through its [const char*]. *)
Definition as_arithmetic (a : Arith) (value_ : Value) : arith_native a :=
  if IsNumber value_ then
    if IsInt value_ then cast_of_int a (GetInt value_)
    else if IsUint value_ then cast_of_int a (GetUint value_)
    else if IsInt64 value_ then cast_of_int a (GetInt64 value_)
    else if IsUint64 value_ then cast_of_int a (GetUint64 value_)
    else if IsDouble value_ then cast_of_double a (GetDouble value_)
    else zero a
  else if IsBool value_ then cast_of_bool a (GetBool value_)
  else if IsString value_ then
    detail.parse_default lower_string strtod a
      (c_str (GetString value_)) (zero a)
  else zero a.

(** [as<const char*>] *)
Definition as_const_char (value_ : Value) : option string :=
  if IsString value_ then Some (GetString value_) else None.

(** [std::to_string(double)] *)
Variable to_string_double : spec_float -> string.

(** [as<std::string>].  The string case builds the result from the
    [const char*] alone. *)
Definition as_string (value_ : Value) : string :=
  if IsNumber value_ then
    if IsInt value_ then to_string_int (GetInt value_)
    else if IsUint value_ then to_string_int (GetUint value_)
    else if IsInt64 value_ then to_string_int (GetInt64 value_)
    else if IsUint64 value_ then to_string_int (GetUint64 value_)
    else if IsDouble value_ then to_string_double (GetDouble value_)
    else ""
  else if IsBool value_ then (if GetBool value_ then "true" else "false")
  else if IsString value_ then c_str (GetString value_)
  else "".

(** Overload resolution of [as<T>()]. *)
Definition as_ (T : Target) : Value -> native T :=
  match T with
  | TArith a => as_arithmetic a
  | TChar => as_char
  | TConstCharPtr => as_const_char
  | TString => as_string
  end.

(** [get<bool>] *)
Definition get_bool (value_ : Value) : option bool :=
  if IsBool value_ then Some (GetBool value_) else None.

(** [get<char>] *)
Definition get_char (value_ : Value) : option ascii :=
  if IsString value_ && Nat.eqb (GetStringLength value_) 1
  then Some (char_at (GetString value_) 0)
  else None.

(** [get<T>], signed and [sizeof(T) == 8] *)
Definition get_signed_8 (t : limits.IntTy) (value_ : Value) : option Z :=
  if IsInt64 value_
  then Some (limits.static_cast_int t (GetInt64 value_))
  else None.

(** [get<T>], signed and [sizeof(T) < 8] *)
Definition get_signed_narrow (t : limits.IntTy) (value_ : Value)
    : option Z :=
  if IsInt value_ && (limits.min t <=? GetInt value_)
     && (GetInt value_ <=? limits.max t)
  then Some (limits.static_cast_int t (GetInt value_))
  else None.

(** [get<T>], unsigned and [sizeof(T) == 8] *)
Definition get_unsigned_8 (t : limits.IntTy) (value_ : Value) : option Z :=
  if IsUint64 value_
  then Some (limits.static_cast_int t (GetUint64 value_))
  else None.

(** [get<T>], unsigned and [sizeof(T) < 8] *)
Definition get_unsigned_narrow (t : limits.IntTy) (value_ : Value)
    : option Z :=
  if IsUint value_ && (limits.min t <=? GetUint value_)
     && (GetUint value_ <=? limits.max t)
  then Some (limits.static_cast_int t (GetUint value_))
  else None.

(** [get<T>], floating point; [to_T] is [static_cast<T>]. *)
Definition get_floating (to_T : spec_float -> spec_float)
    (value_ : Value) : option spec_float :=
  if IsNumber value_ then Some (to_T (GetDouble value_)) else None.

(** [get<const char*>] *)
Definition get_const_char (value_ : Value) : option (option string) :=
  if IsString value_ then Some (Some (GetString value_)) else None.

(** [get<std::string>]: pointer and length. *)
Definition get_string (value_ : Value) : option string :=
  if IsString value_
  then Some (substring 0 (GetStringLength value_) (GetString value_))
  else None.

Definition get_integral (t : limits.IntTy) : Value -> option Z :=
  if limits.is_signed t then
    if limits.sizeof t =? 8 then get_signed_8 t else get_signed_narrow t
  else
    if limits.sizeof t =? 8 then get_unsigned_8 t
    else get_unsigned_narrow t.

(** Overload resolution of [get<T>()]. *)
Definition get (T : Target) : Value -> option (native T) :=
  match T with
  | TArith TBool => get_bool
  | TArith (TInt t) => get_integral t
  | TArith TFloat => get_floating ieee.float_of_double
  | TArith TDouble => get_floating (fun d => d)
  | TChar => get_char
  | TConstCharPtr => get_const_char
  | TString => get_string
  end.

(** The writer of the engine run over a string buffer, as
    [Value::save_to_buffer] drives it: [None] when it reports failure. *)
Variable Accept : Value -> option string.

(** [Value value(ref); value.save_to_buffer(str)] on an empty [str]: the
    copy is structural, and a failed write leaves [str] as it was. *)
Definition save_to_buffer (value_ : Value) : string :=
  match Accept value_ with
  | Some buffer => buffer
  | None => ""
  end.

(** [to_string(MAX_LENGTH_SIZE)] *)
Definition to_string (value_ : Value) (MAX_LENGTH_SIZE : N) : string :=
  if IsNull value_ then "Null"
  else if IsNumber value_ then
    if IsInt value_ then to_string_int (GetInt value_)
    else if IsUint value_ then to_string_int (GetUint value_)
    else if IsInt64 value_ then to_string_int (GetInt64 value_)
    else if IsUint64 value_ then to_string_int (GetUint64 value_)
    else if IsDouble value_ then to_string_double (GetDouble value_)
    else ""
  else if IsBool value_ then (if GetBool value_ then "true" else "false")
  else
    let str := save_to_buffer value_ in
    if (MAX_LENGTH_SIZE <? N.of_nat (String.length str))%N
    then substring 0 (N.to_nat MAX_LENGTH_SIZE) str ++ "..."
    else str.

End accessors.

End ValueRef.

(** ** [ArrayRef] *)

(** A [ValueRef] handed out by a view designates a slot of the node the view
    wraps: it is modelled by the position of the slot, and a call that may
    change the node returns the node after the call with its result. *)

Module ArrayRef.
Import cstdlib rapidjson.

(** [ArrayRef(const ValueRef&)]: a null node becomes an empty array in
    place, another kind is refused. *)
Definition construct (value_ : Value) : result Value :=
  if IsNull value_ then Ok (SetArray value_)
  else if negb (IsArray value_) then
    Throw (what_format
      "Value(%s) is not arrayType, ArrayRef must derived by arrayType"
      value_ 15)
  else Ok value_.

Definition elements (value_ : Value) : list Value :=
  match value_ with kArray l => l | _ => [] end.

(** [value_[index]] of the engine: the slot at a position. *)
Definition slot (value_ : Value) (position : nat) : option Value :=
  nth_error (elements value_) position.

Definition size (value_ : Value) : N := N.of_nat (Size value_).

(** [operator[](size_t index)] *)
Definition subscript (value_ : Value) (index : N) : result nat :=
  if (size value_ <=? index)%N
  then Throw (what "Array index out_of_range")
  else Ok (N.to_nat index).

(** [get_vector<T>()]: the loop over the elements, [res] being the vector
    under construction. *)
Fixpoint get_vector_loop (T : Target) (range : list Value)
    (res : list (native T)) : option (list (native T)) :=
  match range with
  | [] => Some res
  | value :: rest =>
      match ValueRef.get T value with
      | Some value_ => get_vector_loop T rest (res ++ [value_])
      | None => None
      end
  end.

Definition get_vector (T : Target) (value_ : Value)
    : option (list (native T)) :=
  get_vector_loop T (elements value_) [].

Section as_vector.

Variable lower_string : string -> string.
Variable strtod : string -> conversion spec_float.
Variable unrepresentable : spec_float -> Z.
Variable to_string_double : spec_float -> string.

Fixpoint as_vector_loop (T : Target) (func : native T -> bool)
    (range : list Value) (vector : list (native T))
    : list (native T) :=
  match range with
  | [] => vector
  | value :: rest =>
      let value_ :=
        ValueRef.as_ lower_string strtod unrepresentable
          to_string_double T value in
      if func value_
      then as_vector_loop T func rest (vector ++ [value_])
      else as_vector_loop T func rest vector
  end.

(** [as_vector<T>(func)] *)
Definition as_vector (T : Target) (func : native T -> bool)
    (value_ : Value) : list (native T) :=
  as_vector_loop T func (elements value_) [].

(** The default argument of [as_vector]. *)
Definition always (T : Target) : native T -> bool := fun _ => true.

End as_vector.

End ArrayRef.

(** ** [ObjectRef] *)

Module ObjectRef.
Import cstdlib rapidjson.

(** The converting constructor of [ObjectRef], with the same coercion as
    that of [ArrayRef]: the body that tests and coerces [value]. *)
Definition construct (value_ : Value) : result Value :=
  if IsNull value_ then Ok (SetObject value_)
  else if negb (IsObject value_) then
    Throw (what_format
      "Value(%s) is not ObjectType, ObjectRef must derived by ObjectType"
      value_ 15)
  else Ok value_.

(** [it->value] at a member position. *)
Definition slot (value_ : Value) (position : nat) : option Value :=
  option_map snd (nth_error (Members value_) position).

Definition size (value_ : Value) : nat := MemberCount value_.

(** [operator[](const std::string& name)]: the node after the call, and
    the position of the member whose value is referred to. *)
Definition subscript (value_ : Value) (name : string) : Value * nat :=
  let it := FindMember value_ name in
  if Nat.eqb it (MemberEnd value_) then
    let value_' := AddMember value_ name kNull in
    (value_', (MemberEnd value_' - 1)%nat)
  else (value_, it).

(** [operator[](const char* name)], which a string literal selects:
    [StringRef(name)] takes the bytes up to the NUL as the key. *)
Definition subscript_c_str (value_ : Value) (name : string)
    : Value * nat :=
  let key := c_str name in
  let it := FindMember value_ key in
  if Nat.eqb it (MemberEnd value_) then
    let value_' := AddMember value_ key kNull in
    (value_', (MemberEnd value_' - 1)%nat)
  else (value_, it).

(** [operator[](const string_view& name)]: the key is the [length()] bytes
    of the view, which the new member borrows. *)
Definition subscript_view (value_ : Value) (name : string) : Value * nat :=
  let it := FindMember value_ name in
  if Nat.eqb it (MemberEnd value_) then
    let value_' := AddMember value_ name kNull in
    (value_', (MemberEnd value_' - 1)%nat)
  else (value_, it).

(** [find(name)]: the node is not written to. *)
Definition find (value_ : Value) (name : string) : Value * option nat :=
  let it := FindMember value_ name in
  if negb (Nat.eqb it (MemberEnd value_)) then (value_, Some it)
  else (value_, None).

(** [count(name)] *)
Definition count (value_ : Value) (name : string) : Z :=
  if negb (Nat.eqb (FindMember value_ name) (MemberEnd value_))
  then 1 else 0.

(** [has(name)]: the engine is asked through [name.c_str()]. *)
Definition has (value_ : Value) (name : string) : bool :=
  HasMember value_ (c_str name).

End ObjectRef.

(** ** [ValueRef]: the members that go through a view *)

Module ValueRefViews.
Import cstdlib rapidjson.

(** [operator[](size_t idx)] *)
Definition subscript (value_ : Value) (idx : N) : result nat :=
  if negb (IsArray value_) then Throw (what "ValueRef is not array type")
  else if (N.of_nat (Size value_) <=? idx)%N
  then Throw (what "ValueRef[idx] out_of_range")
  else
    match ArrayRef.construct value_ with
    | Ok array => ArrayRef.subscript array idx
    | Throw e => Throw e
    end.

(** [operator[](const char* name)] *)
Definition subscript_c_str (value_ : Value) (name : string)
    : result (Value * nat) :=
  if IsNull value_ then
    match ObjectRef.construct (SetObject value_) with
    | Ok object => Ok (ObjectRef.subscript_c_str object name)
    | Throw e => Throw e
    end
  else if negb (IsObject value_)
  then Throw (what "ValueRef[key] allow ObjectType")
  else
    match ObjectRef.construct value_ with
    | Ok object => Ok (ObjectRef.subscript_c_str object name)
    | Throw e => Throw e
    end.

(** [operator[](const std::string& name)] goes through [name.c_str()]. *)
Definition subscript_string (value_ : Value) (name : string)
    : result (Value * nat) :=
  subscript_c_str value_ name.

(** [find(name)] *)
Definition find (value_ : Value) (name : string)
    : result (Value * option nat) :=
  if IsObject value_ then
    match ObjectRef.construct value_ with
    | Ok object => Ok (ObjectRef.find object name)
    | Throw e => Throw e
    end
  else Ok (value_, None).

End ValueRefViews.

(** ** [ValueRef]: assignment, size and kind *)

Module ValueRefAssign.
Import cstdlib rapidjson.

(** The right-hand sides [operator=] is overloaded for, one constructor
    for each overload.  An integral value reaches the engine through the
    constructor its promoted type selects, and every integer constructor
    stores the value as the payload.

    - [of_c_str s]: the overload for a [const char *], [s] being the bytes
      at the pointer.  This is also the overload a string literal selects
      (a literal is an array of [const char], and the non-template
      overload is preferred to the array template).
    - [of_char_array s beyond]: the template for an array of [N] bytes,
      which an array of non-const [char] selects; [s] is its first
      [N - 1] bytes, [beyond] its last byte and what follows it in memory.
    - [of_string s]: the overload for a [std::string].
    - [of_string_view s beyond]: the overload for a [string_view], a view
      of the bytes [s] of a buffer in which [beyond] follows them.
    - [of_ref other]: the overload for a [ValueRef], a reference to a
      node other than the receiver, which holds [other].  (Assigning a
      [ValueRef] object to itself is skipped by the source; the engine
      does not allow a node to be copied from itself.) *)
Inductive Rhs : Type :=
| of_bool (b : bool)
| of_integral (t : limits.IntTy) (z : Z)
| of_double (d : spec_float)
| of_char_array (s : string) (beyond : string)
| of_string (s : string)
| of_c_str (s : string)
| of_string_view (s : string) (beyond : string)
| of_ref (other : Value).

(** [operator=]: the node after the assignment.  What the node held before
    is not looked at.  A [std::string] is copied with its [length()] bytes
    and a [const char*] with the bytes up to its NUL; an array of [char]
    and a [string_view] are not copied, the node borrows their range. *)
Definition assign (value_ : Value) (rhs : Rhs) : Value :=
  match rhs with
  | of_bool b => kBool b
  | of_integral _ z => kNumberInt z
  | of_double d => kNumberDouble d
  | of_char_array s beyond => kConstString s beyond
  | of_string s => kString s
  | of_c_str s => kString (c_str s)
  | of_string_view s beyond => kConstString s beyond
  | of_ref other => other
  end.

(** A [const ValueRef&] argument, which the callee reads when it copies
    from it.  [node other] is a reference to a node that holds [other]
    when it is read; [this_node] is a reference to the very node the callee
    works on, which is read as that node stands at the time of the
    reading. *)
Inductive NodeRef : Type :=
| node (other : Value)
| this_node.

Definition deref (ref : NodeRef) (current : Value) : Value :=
  match ref with
  | node other => other
  | this_node => current
  end.

(** [empty()] *)
Definition empty (value_ : Value) : bool :=
  if IsObject value_ then Nat.eqb (MemberCount value_) 0
  else if IsArray value_ then Empty value_
  else if IsString value_ then Nat.eqb (GetStringLength value_) 0
  else false.

(** [size()] *)
Definition size (value_ : Value) : nat :=
  if IsObject value_ then MemberCount value_
  else if IsArray value_ then Size value_
  else if IsString value_ then GetStringLength value_
  else O.

End ValueRefAssign.

(** ** [ArrayRef]: growing, shrinking and the ends *)

Module ArrayRefMembers.
Import cstdlib rapidjson.

(** [PopBack] of the engine, which is to be called on an array that is not
    empty. *)
Definition PopBack (value_ : Value) : Value :=
  match value_ with
  | kArray l => kArray (removelast l)
  | _ => value_
  end.

(** [Erase(first, last)] of the engine: the elements from [first] up to
    [last] are taken out and the later ones move down, keeping their
    order. *)
Definition Erase (value_ : Value) (first last : nat) : Value :=
  match value_ with
  | kArray l => kArray (firstn first l ++ skipn last l)
  | _ => value_
  end.

(** [push_back(value)]: a fresh node is assigned [value] and appended. *)
Definition push_back (value_ : Value) (value : ValueRefAssign.Rhs) : Value :=
  let temp := ValueRefAssign.assign kNull value in
  PushBack value_ temp.

(** [push_back()]: a null node is appended; the reference is to the last
    slot. *)
Definition push_back_null (value_ : Value) : Value * nat :=
  let value_' := PushBack value_ kNull in
  (value_', (Size value_' - 1)%nat).

(** [pop_back()] *)
Definition pop_back (value_ : Value) : Value :=
  if negb (Empty value_) then PopBack value_ else value_.

(** [front()] *)
Definition front (value_ : Value) : result nat :=
  if Empty value_ then Throw (what "Empty Array front() is null")
  else Ok O.

(** [back()] *)
Definition back (value_ : Value) : result nat :=
  if Empty value_ then Throw (what "Empty Array back() is null")
  else Ok (Size value_ - 1)%nat.

(** [int diff = n - size()]: the difference of two [size_t] converted to a
    32-bit [int]. *)
Definition diff (value_ : Value) (n : N) : Z :=
  limits.wrap_signed 32
    (limits.wrap_unsigned 64 (Z.of_N n - Z.of_nat (Size value_))).

(** [resize(n)]: that many null nodes are appended, or that many elements
    dropped from the back.  The source negates a negative difference in
    place, which the language leaves undefined for the least [int]; the
    negation is written here in unbounded integers. *)
Definition resize (value_ : Value) (n : N) : Value :=
  let d := diff value_ n in
  if 0 <? d then Nat.iter (Z.to_nat d) (fun v => PushBack v kNull) value_
  else if d <? 0 then Nat.iter (Z.to_nat (- d)) PopBack value_
  else value_.

(** The argument of [resize(n, value)]: something [operator=] takes (a
    reference among them, to a node that is no part of the array), or a
    reference to the array that is being resized. *)
Inductive Fill : Type :=
| fill (value : ValueRefAssign.Rhs)
| fill_this_array.

(** One round of the loop of [resize(n, value)]: [value] is assigned to a
    fresh node, which is appended.  The argument is forwarded anew on each
    round, so a reference is read as its node stands then. *)
Definition resize_fill_step (value : Fill) (value_ : Value) : Value :=
  let temp :=
    match value with
    | fill rhs => ValueRefAssign.assign kNull rhs
    | fill_this_array =>
        ValueRefAssign.assign kNull (ValueRefAssign.of_ref value_)
    end in
  PushBack value_ temp.

(** [resize(n, value)] *)
Definition resize_fill (value_ : Value) (n : N) (value : Fill) : Value :=
  let d := diff value_ n in
  if 0 <? d then Nat.iter (Z.to_nat d) (resize_fill_step value) value_
  else if d <? 0 then Nat.iter (Z.to_nat (- d)) PopBack value_
  else value_.

(** [erase(pos)]: the node after the call and the position returned. *)
Definition erase (value_ : Value) (pos : nat) : Value * nat :=
  (Erase value_ pos (S pos), pos).

End ArrayRefMembers.

(** ** [ObjectRef]: insertion, removal and typed lookup *)

Module ObjectRefMembers.
Import cstdlib rapidjson.

(** [EraseMember(first, last)] of the engine: the order of the members
    that stay is kept. *)
Definition EraseMember (value_ : Value) (first last : nat) : Value :=
  match value_ with
  | kObject m => kObject (firstn first m ++ skipn last m)
  | _ => value_
  end.




(** [erase(name)]: the node after the call and the iterator returned. *)
Definition erase (value_ : Value) (name : string) : Value * nat :=
  let it := FindMember value_ name in
  if negb (Nat.eqb it (MemberEnd value_))
  then (EraseMember value_ it (S it), it)
  else (value_, it).

(** [it->value] at the position [FindMember] returns. *)
Definition found (value_ : Value) (name : string) : option Value :=
  let it := FindMember value_ name in
  if negb (Nat.eqb it (MemberEnd value_))
  then ObjectRef.slot value_ it
  else None.

(** [get_value<bool>(name)] *)
Definition get_value_bool (value_ : Value) (name : string) : option bool :=
  match found value_ name with
  | Some x => ValueRef.get_bool x
  | None => None
  end.

(** [get_value<std::string>(name)] *)
Definition get_value_string (value_ : Value) (name : string)
    : option string :=
  match found value_ name with
  | Some x =>
      if IsString x
      then Some (substring 0 (GetStringLength x) (GetString x))
      else None
  | None => None
  end.

(** [get_value<const char*>(name)] *)
Definition get_value_const_char (value_ : Value) (name : string)
    : option (option string) :=
  match found value_ name with
  | Some x => if IsString x then Some (Some (GetString x)) else None
  | None => None
  end.

(** [get_value<T>(name)] for a bounded [T] other than [bool]. *)
Definition get_value_number (T : Target) (value_ : Value) (name : string)
    : option (native T) :=
  match found value_ name with
  | Some x => ValueRef.get T x
  | None => None
  end.

(** Overload resolution of [get_value<T>(name)]. *)
Definition get_value (T : Target) : Value -> string -> option (native T) :=
  match T with
  | TArith TBool => get_value_bool
  | TString => get_value_string
  | TConstCharPtr => get_value_const_char
  | TArith (TInt t) => get_value_number (TArith (TInt t))
  | TArith TFloat => get_value_number (TArith TFloat)
  | TArith TDouble => get_value_number (TArith TDouble)
  | TChar => get_value_number TChar
  end.

(** [get_value<T>(name, defval)] *)
Definition get_value_default (T : Target) (value_ : Value) (name : string)
    (defval : native T) : native T :=
  match get_value T value_ name with
  | Some value => value
  | None => defval
  end.

(** [find_any(names)]: the iterator returned. *)
Fixpoint find_any (value_ : Value) (names : list string) : nat :=
  match names with
  | [] => MemberEnd value_
  | name :: rest =>
      let it := FindMember value_ name in
      if negb (Nat.eqb it (MemberEnd value_)) then it
      else find_any value_ rest
  end.

(** [find_all(names)] *)
Fixpoint find_all (value_ : Value) (names : list string) : bool :=
  match names with
  | [] => true
  | name :: rest =>
      let it := FindMember value_ name in
      if Nat.eqb it (MemberEnd value_) then false
      else find_all value_ rest
  end.

End ObjectRefMembers.

(** ** [ValueRef]: appending, membership and native containers *)

Module ValueRefMembers.
Import cstdlib rapidjson.

(** [push_back(const ValueRef& value)].  The reference is read by
    [ArrayRef::push_back], after a null receiver has been made an array:
    when it designates the receiver it is that array which is copied. *)
Definition push_back (value_ : Value) (value : ValueRefAssign.NodeRef)
    : result Value :=
  let coerced :=
    if IsNull value_ then Ok (SetArray value_)
    else if negb (IsArray value_)
    then Throw (what "ValueRef::push_back allow ArrayType")
    else Ok value_ in
  match coerced with
  | Ok v =>
      match ArrayRef.construct v with
      | Ok array =>
          Ok (ArrayRefMembers.push_back array
                (ValueRefAssign.of_ref (ValueRefAssign.deref value array)))
      | Throw e => Throw e
      end
  | Throw e => Throw e
  end.

(** [has(name)] *)
Definition has (value_ : Value) (name : string) : result bool :=
  if IsObject value_ then
    match ObjectRef.construct value_ with
    | Ok object => Ok (ObjectRef.has object name)
    | Throw e => Throw e
    end
  else Ok false.

(** [static_cast<double>] of a [float]: the same number. *)
Definition double_of_float (f : spec_float) : spec_float :=
  match f with
  | S754_finite s m e => binary_normalize 53 1024 (cond_Zopp s (Zpos m)) e s
  | _ => f
  end.

(** The node the engine constructs from an arithmetic value. *)
Definition scalar (a : Arith) : arith_native a -> Value :=
  match a with
  | TBool => kBool
  | TInt _ => kNumberInt
  | TFloat => fun f => kNumberDouble (double_of_float f)
  | TDouble => kNumberDouble
  end.

(** [set_container] of a sequence of numbers; the sequence is given in its
    iteration order. *)
Definition set_container_numbers (a : Arith) (value_ : Value)
    (array : list (arith_native a)) : Value :=
  fold_left (fun v k => PushBack v (scalar a k)) array (SetArray value_).

(** [set_container] of a sequence of strings.  With or without copy the
    node holds the [length()] bytes of each; without, it borrows the buffer
    of the [std::string], which ends in NUL. *)
Definition set_container_strings (value_ : Value) (array : list string)
    (str_copy : bool) : Value :=
  fold_left
    (fun v k => if str_copy then PushBack v (kString k)
                else PushBack v (kConstString k ""))
    array (SetArray value_).

(** [set_container] of a mapping from strings to numbers, given as its
    pairs in iteration order. *)
Definition set_container_map (a : Arith) (value_ : Value)
    (map : list (string * arith_native a)) (str_copy : bool) : Value :=
  fold_left
    (fun v k =>
       let name :=
         if str_copy then kString (fst k) else kConstString (fst k) "" in
       AddMember v (bytes name)
         (scalar a (snd k)))
    map (SetObject value_).

(** [set_container] of a mapping from strings to strings. *)
Definition set_container_string_map (value_ : Value)
    (map : list (string * string)) (str_copy : bool) : Value :=
  fold_left
    (fun v k =>
       let name :=
         if str_copy then kString (fst k) else kConstString (fst k) "" in
       let value :=
         if str_copy then kString (snd k) else kConstString (snd k) "" in
       AddMember v (bytes name)
         value)
    map (SetObject value_).

End ValueRefMembers.

(** * Vocabulary of the properties *)

Import cstdlib rapidjson.

(** The payload of an integer node is a 64-bit value: it fits [int64_t] or
    [uint64_t]. *)
Definition valid_number (v : Value) : bool :=
  match v with
  | kNumberInt i => (limits.LONG_MIN <=? i) && (i <=? limits.ULONG_MAX)
  | _ => true
  end.

(** Targets on which the two accessor families read a node the same way:
    every one except [float], whose strict accessor rounds twice (through
    [GetDouble]), and [std::string], whose permissive accessor reads the
    buffer as a [const char*]. *)
Definition reads_alike (T : Target) : bool :=
  match T with
  | TArith TFloat | TString => false
  | _ => true
  end.

(** What [as<T>] returns when it reaches its last [return]: on a node
    that is neither a number, a boolean nor a string. *)
Definition fallback (T : Target) : native T :=
  match T with
  | TArith a => zero a
  | TChar => " "%char
  | TConstCharPtr => None
  | TString => EmptyString
  end.

(** A string node of three bytes, the middle one NUL; the reader of the
    engine builds it from the text ["a\u0000b"]. *)
Definition a_NUL_b : string := String "a" (String NUL "b").

(** [sizeof(T) < 8] *)
Definition narrow (t : limits.IntTy) : bool := limits.sizeof t <? 8.

(** The flag of the signed or unsigned family [T] belongs to. *)
Definition family_flag (t : limits.IntTy) : Value -> bool :=
  if limits.is_signed t then IsInt else IsUint.

(** A run of decimal digits, and the number it denotes. *)
Definition all_digits (ds : string) : bool :=
  forallb isdigit (list_ascii_of_string ds).

Fixpoint decimal_from (ds : string) (acc : Z) : Z :=
  match ds with
  | EmptyString => acc
  | String c rest => decimal_from rest (10 * acc + digit_value c)
  end.

Definition decimal (ds : string) : Z := decimal_from ds 0.

(** The text ["12"], a NUL byte, and ["x"]: four bytes. *)
Definition twelve_NUL_x : string := "12" ++ String NUL "x".

(** What truncation to [max_len] bytes with an ellipsis does to a text. *)
Definition truncated (max_len : N) (str : string) : string :=
  if (max_len <? N.of_nat (String.length str))%N
  then substring 0 (N.to_nat max_len) str ++ "..."
  else str.

(** [std::numeric_limits<size_t>::max()], the default [MAX_LENGTH_SIZE]. *)
Definition SIZE_MAX : N := 18446744073709551615%N.

(** * Properties *)

(** ** Ranges and flags *)

Lemma in_range_iff (t : limits.IntTy) (z : Z) :
  limits.in_range t z = true <-> limits.min t <= z <= limits.max t.
Proof.
  unfold limits.in_range.
  rewrite andb_true_iff, !Z.leb_le.
  reflexivity.
Qed.

(** Replaces the limits of a given type by their numerals. *)
Ltac limits_numerals :=
  repeat match goal with
    | |- context [limits.min ?t] =>
        let v := eval vm_compute in (limits.min t) in
        change (limits.min t) with v
    | |- context [limits.max ?t] =>
        let v := eval vm_compute in (limits.max t) in
        change (limits.max t) with v
    | H : context [limits.min ?t] |- _ =>
        let v := eval vm_compute in (limits.min t) in
        change (limits.min t) with v in H
    | H : context [limits.max ?t] |- _ =>
        let v := eval vm_compute in (limits.max t) in
        change (limits.max t) with v in H
    end.

Lemma wrap_unsigned_id (w z : Z) :
  0 <= z < 2 ^ w -> limits.wrap_unsigned w z = z.
Proof.
  intros H. unfold limits.wrap_unsigned. apply Z.mod_small. exact H.
Qed.

Lemma wrap_signed_id (w z : Z) :
  0 < w -> - 2 ^ (w - 1) <= z < 2 ^ (w - 1) -> limits.wrap_signed w z = z.
Proof.
  intros Hw H. unfold limits.wrap_signed.
  assert (E : 2 ^ w = 2 * 2 ^ (w - 1)).
  { replace w with (Z.succ (w - 1)) at 1 by lia.
    rewrite Z.pow_succ_r by lia. reflexivity. }
  rewrite Z.mod_small by lia. lia.
Qed.

(** A conversion to [T] keeps a value that [T] can hold. *)
Lemma static_cast_int_id (t : limits.IntTy) (z : Z) :
  limits.min t <= z <= limits.max t -> limits.static_cast_int t z = z.
Proof.
  intros H. unfold limits.static_cast_int.
  destruct t; cbn [limits.is_signed limits.bits];
    first [ apply wrap_signed_id; [ lia | limits_numerals; cbn; lia ]
          | apply wrap_unsigned_id; limits_numerals; cbn; lia ].
Qed.

Lemma valid_number_flag (i : Z) :
  valid_number (kNumberInt i) = true ->
  IsInt64 (kNumberInt i) = true \/ IsUint64 (kNumberInt i) = true.
Proof.
  cbn [valid_number IsInt64 IsUint64].
  rewrite andb_true_iff, !Z.leb_le, !in_range_iff.
  limits_numerals. unfold limits.LONG_MIN, limits.ULONG_MAX.
  limits_numerals. lia.
Qed.

(** Which overload of [get<T>] an integral [T] selects. *)
Lemma get_integral_overload (t : limits.IntTy) :
  ValueRef.get_integral t =
  match t with
  | limits.Int64 => ValueRef.get_signed_8 t
  | limits.UInt64 => ValueRef.get_unsigned_8 t
  | limits.Int8 | limits.Int16 | limits.Int32 => ValueRef.get_signed_narrow t
  | limits.UInt8 | limits.UInt16 | limits.UInt32 =>
      ValueRef.get_unsigned_narrow t
  end.
Proof. destruct t; reflexivity. Qed.

(** The strict integral accessor yields a value exactly on an integer node
    whose payload the target can hold, and yields the payload. *)
Lemma get_integral_Some (t : limits.IntTy) (n : Value) (v : Z) :
  ValueRef.get_integral t n = Some v <->
  n = kNumberInt v /\ limits.min t <= v <= limits.max t.
Proof.
  rewrite get_integral_overload.
  destruct n as [ | b | i | d | s | s beyond | l | m ];
    try (split; [ destruct t; discriminate | intros [E _]; discriminate E ]).
  destruct t;
    cbv [ValueRef.get_signed_8 ValueRef.get_signed_narrow
         ValueRef.get_unsigned_8 ValueRef.get_unsigned_narrow];
    cbn [IsInt IsUint IsInt64 IsUint64 GetInt GetUint GetInt64 GetUint64
         payload].
  all: split.
  all: try (intros [E H]; injection E as ->;
            rewrite static_cast_int_id by exact H;
            match goal with |- (if ?c then _ else _) = _ =>
              replace c with true; [ reflexivity | symmetry ] end;
            rewrite ?andb_true_iff, ?Z.leb_le, ?in_range_iff;
            limits_numerals; limits_numerals; lia).
  all: match goal with |- (if ?c then _ else _) = _ -> _ =>
         destruct c eqn:C; [ | discriminate ] end;
    rewrite ?andb_true_iff, ?Z.leb_le, ?in_range_iff in C;
    intros E; injection E as <-;
    rewrite static_cast_int_id by (limits_numerals; lia);
    split; [ reflexivity | limits_numerals; lia ].
Qed.

(** The flag cascade of the permissive accessors selects one and the same
    payload whichever flag answers first. *)
Lemma flag_cascade {A : Type} (i : Z) (f : Z -> A) (other fallback : A) :
  valid_number (kNumberInt i) = true ->
  (if IsInt (kNumberInt i) then f i
   else if IsUint (kNumberInt i) then f i
   else if IsInt64 (kNumberInt i) then f i
   else if IsUint64 (kNumberInt i) then f i
   else if IsDouble (kNumberInt i) then other
   else fallback) = f i.
Proof.
  intros V. destruct (valid_number_flag i V) as [E | E]; rewrite E;
    repeat match goal with
      | |- context [if ?c then _ else _] => destruct c
      end; reflexivity.
Qed.

Section permissive_on_numbers.

Variable lower_string : string -> string.
Variable strtod : string -> conversion spec_float.
Variable unrepresentable : spec_float -> Z.
Variable to_string_double : spec_float -> string.

Lemma as_arithmetic_int (a : Arith) (i : Z) :
  valid_number (kNumberInt i) = true ->
  ValueRef.as_arithmetic lower_string strtod unrepresentable a
    (kNumberInt i) = ValueRef.cast_of_int a i.
Proof.
  intros V. unfold ValueRef.as_arithmetic.
  cbn [IsNumber GetInt GetUint GetInt64 GetUint64 payload].
  apply (flag_cascade i (ValueRef.cast_of_int a)). exact V.
Qed.


End permissive_on_numbers.

(** ** Strict and permissive accessors on one node *)

Lemma substring_whole (s : string) : substring 0 (String.length s) s = s.
Proof.
  induction s as [ | c s IH ]; [ reflexivity | ].
  cbn [String.length substring]. rewrite IH. reflexivity.
Qed.

Lemma substring_prefix (s beyond : string) :
  substring 0 (String.length s) (s ++ beyond) = s.
Proof.
  induction s as [ | c s IH ]; cbn [String.length append substring].
  - destruct beyond; reflexivity.
  - rewrite IH. reflexivity.
Qed.

(** The bytes of the two kinds of string node. *)
Lemma bytes_kString (s : string) : bytes (kString s) = s.
Proof. apply substring_whole. Qed.

Lemma bytes_kConstString (s beyond : string) :
  bytes (kConstString s beyond) = s.
Proof. apply substring_prefix. Qed.

(** What a reader of the pointer sees, in terms of [strlen]. *)
Lemma c_str_is_prefix (s : string) : c_str s = substring 0 (strlen s) s.
Proof.
  induction s as [ | c s IH ]; [ reflexivity | ].
  cbn [c_str strlen]. destruct (Ascii.eqb c NUL); [ reflexivity | ].
  cbn [substring]. rewrite IH. reflexivity.
Qed.

Lemma get_string_Some (n : Value) (v : string) :
  ValueRef.get_string n = Some v <-> IsString n = true /\ bytes n = v.
Proof.
  unfold ValueRef.get_string, bytes.
  destruct (IsString n).
  - split; [ intros E; injection E as <-; split; reflexivity
           | intros [_ <-]; reflexivity ].
  - split; [ discriminate | intros [E _]; discriminate E ].
Qed.

Section strict_then_permissive.

Variable lower_string : string -> string.
Variable strtod : string -> conversion spec_float.
Variable unrepresentable : spec_float -> Z.
Variable to_string_double : spec_float -> string.

#[local] Abbreviation as_ :=
  (ValueRef.as_ lower_string strtod unrepresentable to_string_double).

(** Where [get<T>] yields a value, [as<T>] yields the same one, for the
    targets that read alike. *)
Lemma get_then_as (T : Target) (n : Value) (v : native T) :
  reads_alike T = true ->
  valid_number n = true ->
  ValueRef.get T n = Some v -> as_ T n = v.
Proof.
  intros HT V H.
  destruct T as [ [ | t | | ] | | | ]; try discriminate HT;
    cbn [ValueRef.get ValueRef.as_] in *.
  - (* bool *)
    destruct n; try discriminate H. injection H as <-. reflexivity.
  - (* integral *)
    apply get_integral_Some in H. destruct H as [-> R].
    rewrite as_arithmetic_int by exact V.
    apply static_cast_int_id. exact R.
  - (* double *)
    destruct n; try discriminate H; injection H as <-.
    + rewrite as_arithmetic_int by exact V. reflexivity.
    + reflexivity.
  - (* char *)
    unfold ValueRef.get_char in H. unfold ValueRef.as_char.
    destruct n as [ | | | | s | s beyond | | ]; try discriminate H;
      cbn [IsNumber IsString andb] in *;
      match type of H with (if Nat.eqb ?len 1 then _ else _) = _ =>
        destruct (Nat.eqb len 1) eqn:L; [ | discriminate H ] end;
      apply Nat.eqb_eq in L; rewrite L; injection H as <-; reflexivity.
  - (* const char* *)
    destruct n; try discriminate H; injection H as <-; reflexivity.
Qed.

(** For [std::string] they agree when the first NUL byte at the pointer is
    the one that ends the bytes of the node: the node holds no NUL byte,
    and nothing but a NUL follows its bytes in the buffer. *)
Lemma get_then_as_string (n : Value) (v : string) :
  strlen (GetString n) = GetStringLength n ->
  ValueRef.get TString n = Some v -> as_ TString n = v.
Proof.
  cbn [ValueRef.get ValueRef.as_]. intros E H.
  apply get_string_Some in H. destruct H as [S <-].
  unfold ValueRef.as_string, bytes.
  destruct n; try discriminate S; cbn [IsNumber IsBool IsString];
    rewrite c_str_is_prefix, E; reflexivity.
Qed.

End strict_then_permissive.

(** On [float] the two families round differently: the strict accessor
    goes through [GetDouble] and rounds twice, the permissive one rounds the
    64-bit payload once.  At [2^60 + 2^36 + 1] the results are [2^60] and
    [2^60 + 2^37]. *)
Lemma get_float_rounds_twice
    (lower_string : string -> string)
    (strtod : string -> conversion spec_float)
    (unrepresentable : spec_float -> Z)
    (to_string_double : spec_float -> string) :
  ValueRef.get (TArith TFloat) (kNumberInt (2 ^ 60 + 2 ^ 36 + 1))
  = Some (S754_finite false 8388608 37)
  /\ ValueRef.as_ lower_string strtod unrepresentable to_string_double
       (TArith TFloat) (kNumberInt (2 ^ 60 + 2 ^ 36 + 1))
     = S754_finite false 8388609 37.
Proof. split; vm_compute; reflexivity. Qed.

(** C1, at the input where the code departs from it.  On the string node
    holding the three bytes 'a', NUL, 'b' the strict accessor
    [get<std::string>] yields all three bytes, while the permissive accessor
    [as<std::string>] yields the single byte before the NUL: the strict
    accessor succeeds and the permissive one does not return its value. *)
Theorem as_string_stops_at_NUL
    (lower_string : string -> string)
    (strtod : string -> conversion spec_float)
    (unrepresentable : spec_float -> Z)
    (to_string_double : spec_float -> string) :
  ValueRef.get TString (kString a_NUL_b) = Some a_NUL_b
  /\ ValueRef.as_ lower_string strtod unrepresentable to_string_double
       TString (kString a_NUL_b) = "a"
  /\ String.length a_NUL_b = 3%nat.
Proof. repeat split. Qed.

(** ** [get<char>] *)

(** C9.  [get<char>] yields [c] exactly on the string node whose only byte
    is [c], whether the node owns the byte or borrows it; it yields nothing
    exactly when the node is not a string or its byte length is not 1 (the
    empty string included). *)
Theorem get_char_exactly_one_byte (n : Value) :
  (forall c : ascii,
      ValueRef.get TChar n = Some c <->
      n = kString (String c EmptyString)
      \/ exists beyond, n = kConstString (String c EmptyString) beyond)
  /\ (ValueRef.get TChar n = None <->
      IsString n = false \/ GetStringLength n <> 1%nat).
Proof.
  cbn [ValueRef.get]. unfold ValueRef.get_char.
  destruct n as [ | b | i | d | s | s beyond | l | m ];
    cbn [IsString GetString GetStringLength andb];
    try (split;
         [ intros c; split;
           [ discriminate
           | intros [E | [beyond E]]; discriminate E ]
         | split; [ intros _; left; reflexivity | reflexivity ] ]).
  - destruct s as [ | c0 [ | c1 s ] ];
      cbn [String.length Nat.eqb char_at get].
    + split.
      * intros c; split;
          [ discriminate | intros [E | [beyond E]]; discriminate E ].
      * split; [ intros _; right; discriminate | reflexivity ].
    + split.
      * intros c; split.
        -- intros E; injection E as ->. left. reflexivity.
        -- intros [E | [beyond E]]; [ | discriminate E ].
           injection E as ->. reflexivity.
      * split; [ discriminate | intros [E | E]; [ discriminate E | ] ].
        exfalso. apply E. reflexivity.
    + split.
      * intros c; split;
          [ discriminate | intros [E | [beyond E]]; discriminate E ].
      * split; [ intros _; right; discriminate | reflexivity ].
  - destruct s as [ | c0 [ | c1 s ] ];
      cbn [String.length Nat.eqb char_at get append].
    + split.
      * intros c; split;
          [ discriminate | intros [E | [b E]]; discriminate E ].
      * split; [ intros _; right; discriminate | reflexivity ].
    + split.
      * intros c; split.
        -- intros E; injection E as ->. right. exists beyond. reflexivity.
        -- intros [E | [b E]]; [ discriminate E | ].
           injection E as -> _. reflexivity.
      * split; [ discriminate | intros [E | E]; [ discriminate E | ] ].
        exfalso. apply E. reflexivity.
    + split.
      * intros c; split;
          [ discriminate | intros [E | [b E]]; discriminate E ].
      * split; [ intros _; right; discriminate | reflexivity ].
Qed.

(** ** Narrow integer targets *)

(** C6.  For an integer target narrower than 64 bits, [get<T>] yields [v]
    exactly when the node carries the flag of [T]'s family and its stored
    value, which is [v], lies between [min(T)] and [max(T)].  Equivalently
    the node is an integer node holding such a [v].  On a node holding 1000
    [get<int8_t>] yields nothing, on a node holding 100 it yields 100. *)
Theorem get_narrow_in_range (t : limits.IntTy) (n : Value) (v : Z) :
  narrow t = true ->
  (ValueRef.get (TArith (TInt t)) n = Some v <->
   family_flag t n = true
   /\ limits.min t <= payload n <= limits.max t
   /\ v = payload n)
  /\ (ValueRef.get (TArith (TInt t)) n = Some v <->
      n = kNumberInt v /\ limits.min t <= v <= limits.max t)
  /\ ValueRef.get (TArith (TInt limits.Int8)) (kNumberInt 1000) = None
  /\ ValueRef.get (TArith (TInt limits.Int8)) (kNumberInt 100) = Some 100.
Proof.
  intros Hn. cbn [ValueRef.get].
  split; [ | split; [ apply get_integral_Some | split; reflexivity ] ].
  rewrite get_integral_Some. split.
  - intros [-> R]. cbn [payload]. repeat split; try lia.
    unfold family_flag.
    destruct t; try discriminate Hn; cbn [limits.is_signed IsInt IsUint];
      apply in_range_iff; limits_numerals; lia.
  - intros (F & R & ->).
    destruct n as [ | b | i | d | s | s beyond | l | m ];
      try (unfold family_flag in F; destruct (limits.is_signed t);
           discriminate F).
    cbn [payload] in *. split; [ reflexivity | exact R ].
Qed.

(** The hypothesis of C6 is met by [int8_t], at a node holding 100. *)
Lemma get_narrow_in_range_witness :
  narrow limits.Int8 = true
  /\ (ValueRef.get (TArith (TInt limits.Int8)) (kNumberInt 100) = Some 100
      <-> family_flag limits.Int8 (kNumberInt 100) = true
          /\ limits.min limits.Int8 <= payload (kNumberInt 100)
             <= limits.max limits.Int8
          /\ 100 = payload (kNumberInt 100)).
Proof.
  split; [ reflexivity | ].
  exact (proj1 (get_narrow_in_range limits.Int8 (kNumberInt 100) 100
                  eq_refl)).
Defined.

(** ** [ArrayRef::get_vector] *)

(** The loop carries the values converted so far in front of those to
    come. *)
Lemma get_vector_loop_Some (T : Target) (range : list Value)
    (res vs : list (native T)) :
  ArrayRef.get_vector_loop T range res = Some vs <->
  exists tl, vs = (res ++ tl)%list
             /\ Forall2 (fun n v => ValueRef.get T n = Some v) range tl.
Proof.
  revert res. induction range as [ | n range IH ]; intros res;
    cbn [ArrayRef.get_vector_loop].
  - split.
    + intros E. injection E as <-. exists []. rewrite app_nil_r.
      split; [ reflexivity | constructor ].
    + intros (tl & -> & F). inversion F. rewrite app_nil_r. reflexivity.
  - destruct (ValueRef.get T n) as [ v | ] eqn:G.
    + rewrite IH. split.
      * intros (tl & -> & F). exists (v :: tl). rewrite <- app_assoc.
        split; [ reflexivity | constructor; assumption ].
      * intros (tl & -> & F). inversion F as [ | n' v' r' tl' Hv Hr ]; subst.
        rewrite G in Hv. injection Hv as <-.
        exists tl'. rewrite <- app_assoc. split; [ reflexivity | exact Hr ].
    + split; [ discriminate | ].
      intros (tl & _ & F). inversion F as [ | n' v' r' tl' Hv Hr ]; subst.
      rewrite G in Hv. discriminate Hv.
Qed.

Lemma get_vector_loop_None (T : Target) (range : list Value)
    (res : list (native T)) :
  ArrayRef.get_vector_loop T range res = None <->
  Exists (fun n => ValueRef.get T n = None) range.
Proof.
  revert res. induction range as [ | n range IH ]; intros res;
    cbn [ArrayRef.get_vector_loop].
  - split; [ discriminate | intros E; inversion E ].
  - destruct (ValueRef.get T n) as [ v | ] eqn:G.
    + rewrite IH. split.
      * intros E. apply Exists_cons_tl. exact E.
      * intros E. inversion E as [ ? ? Hn | ? ? Hr ]; subst;
          [ rewrite G in Hn; discriminate Hn | exact Hr ].
    + split; [ intros _; apply Exists_cons_hd; exact G | reflexivity ].
Qed.

(** C3.  [get_vector<T>()] yields a vector exactly when [get<T>] yields a
    value on every element, and the vector then holds those values in the
    order of the elements; it yields nothing exactly when [get<T>] yields
    nothing on some element, whatever the elements before and after it.
    On [[1, "x", 3]] and [T = int] it yields nothing. *)
Theorem get_vector_all_or_nothing (T : Target) (A : list Value) :
  (forall vs : list (native T),
      ArrayRef.get_vector T (kArray A) = Some vs <->
      Forall2 (fun n v => ValueRef.get T n = Some v) A vs)
  /\ (ArrayRef.get_vector T (kArray A) = None <->
      Exists (fun n => ValueRef.get T n = None) A)
  /\ (forall (before after : list Value) (n : Value),
         ValueRef.get T n = None ->
         ArrayRef.get_vector T (kArray (before ++ n :: after)%list) = None)
  /\ ArrayRef.get_vector (TArith (TInt limits.Int32))
       (kArray [kNumberInt 1; kString "x"; kNumberInt 3]) = None.
Proof.
  unfold ArrayRef.get_vector. cbn [ArrayRef.elements].
  split; [ | split; [ | split ] ].
  - intros vs. rewrite get_vector_loop_Some. split.
    + intros (tl & -> & F). exact F.
    + intros F. exists vs. split; [ reflexivity | exact F ].
  - apply get_vector_loop_None.
  - intros before after n G. apply get_vector_loop_None.
    apply Exists_exists. exists n. split; [ | exact G ].
    apply in_or_app. right. left. reflexivity.
  - reflexivity.
Qed.

(** C3 on the array [[1, "x", 3]] with [T = int]: the second element has
    no strict reading, and nothing is returned. *)
Lemma get_vector_all_or_nothing_witness :
  ValueRef.get (TArith (TInt limits.Int32)) (kString "x") = None
  /\ ArrayRef.get_vector (TArith (TInt limits.Int32))
       (kArray ([kNumberInt 1] ++ kString "x" :: [kNumberInt 3])%list)
     = None
  /\ Forall2
       (fun n v => ValueRef.get (TArith (TInt limits.Int32)) n = Some v)
       [kNumberInt 1; kNumberInt 3] [1; 3].
Proof.
  pose proof (get_vector_all_or_nothing (TArith (TInt limits.Int32))
                [kNumberInt 1; kNumberInt 3]) as (HSome & _ & _ & _).
  pose proof (get_vector_all_or_nothing (TArith (TInt limits.Int32))
                [kNumberInt 1; kString "x"; kNumberInt 3])
    as (_ & _ & HNone & _).
  split; [ reflexivity | split ].
  - apply (HNone [kNumberInt 1] [kNumberInt 3] (kString "x")). reflexivity.
  - apply (HSome [1; 3]). reflexivity.
Defined.

(** ** [ArrayRef::as_vector] *)

Section lenient_vector.

Variable lower_string : string -> string.
Variable strtod : string -> conversion spec_float.
Variable unrepresentable : spec_float -> Z.
Variable to_string_double : spec_float -> string.

#[local] Abbreviation as_ :=
  (ValueRef.as_ lower_string strtod unrepresentable to_string_double).
#[local] Abbreviation as_vector :=
  (ArrayRef.as_vector lower_string strtod unrepresentable to_string_double).

Lemma as_vector_loop_filter_map (T : Target) (func : native T -> bool)
    (range : list Value) (vector : list (native T)) :
  ArrayRef.as_vector_loop lower_string strtod unrepresentable
    to_string_double T func range vector
  = (vector ++ filter func (map (as_ T) range))%list.
Proof.
  revert vector. induction range as [ | n range IH ]; intros vector;
    cbn [ArrayRef.as_vector_loop map filter].
  - rewrite app_nil_r. reflexivity.
  - destruct (func (as_ T n)).
    + rewrite IH, <- app_assoc. reflexivity.
    + apply IH.
Qed.

(** A string node the numeric parser rejects reads as zero. *)
Lemma as_arithmetic_unparsable (a : Arith) (s : string) :
  detail.parse lower_string strtod a (c_str s) = None ->
  as_ (TArith a) (kString s) = zero a.
Proof.
  intros E. cbn [ValueRef.as_]. unfold ValueRef.as_arithmetic.
  cbn [IsNumber IsBool IsString GetString].
  unfold detail.parse_default. rewrite E. reflexivity.
Qed.

(** C4, as the code has it.  [as_vector<T>(func)] is the sequence of the
    [as<T>] readings of the elements, in order, restricted to those [func]
    accepts; with the default predicate it has one entry for each element.
    An element that does not convert is not skipped, it contributes what
    [as<T>] falls back to: [0] for an arithmetic [T], the empty string for
    [std::string], a null pointer for [const char*] and, for [char], a
    space.  For an arithmetic [T] a string node is handed to the parser as
    the C string that stands at its pointer, and reads as [0] when the
    parser yields nothing; for a node that owns its bytes this is the bytes
    up to their first NUL, for a node that borrows a range it includes the
    bytes that follow the range: the byte ["-"] borrowed from the text
    ["-5"] reads as [-5].  On [[1, "x", 3]] and [T = int] the result is
    [[1, 0, 3]]. *)
Theorem as_vector_is_filter_of_as (T : Target) (func : native T -> bool)
    (A : list Value) :
  as_vector T func (kArray A) = filter func (map (as_ T) A)
  /\ as_vector T (ArrayRef.always T) (kArray A) = map (as_ T) A
  /\ List.length (as_vector T (ArrayRef.always T) (kArray A))
     = List.length A
  /\ (forall (a : Arith) (s : string),
         as_ (TArith a) (kString s)
         = match detail.parse lower_string strtod a (c_str s) with
           | Some v => v
           | None => zero a
           end)
  /\ (forall (a : Arith) (l : list Value) (m : list (string * Value)),
         as_ (TArith a) kNull = zero a
         /\ as_ (TArith a) (kArray l) = zero a
         /\ as_ (TArith a) (kObject m) = zero a)
  /\ (forall (l : list Value) (m : list (string * Value)),
         as_ TString kNull = ""
         /\ as_ TString (kArray l) = ""
         /\ as_ TString (kObject m) = "")
  /\ as_ (TArith (TInt limits.Int32)) (kString "x") = 0
  /\ as_vector (TArith (TInt limits.Int32))
       (ArrayRef.always (TArith (TInt limits.Int32)))
       (kArray [kNumberInt 1; kString "x"; kNumberInt 3]) = [1; 0; 3]
  /\ (forall (T' : Target) (l : list Value) (m : list (string * Value)),
         as_ T' kNull = fallback T'
         /\ as_ T' (kArray l) = fallback T'
         /\ as_ T' (kObject m) = fallback T')
  /\ (forall b : bool, as_ TChar (kBool b) = " "%char)
  /\ as_ TChar (kString "") = " "%char
  /\ (forall n : Value,
         IsString n = false -> as_ TConstCharPtr n = None)
  /\ (forall (a : Arith) (n : Value),
         IsString n = true ->
         as_ (TArith a) n
         = match
             detail.parse lower_string strtod a (c_str (GetString n))
           with
           | Some v => v
           | None => zero a
           end)
  /\ (forall (a : Arith) (s beyond : string),
         as_ (TArith a) (kConstString s beyond)
         = as_ (TArith a) (kString (s ++ beyond)))
  /\ as_ (TArith (TInt limits.Int32)) (kString "-") = 0
  /\ as_ (TArith (TInt limits.Int32)) (kConstString "-" "5") = - 5
  /\ as_vector TChar (ArrayRef.always TChar) (kArray [kNull; kString "x"])
     = [" "%char; "x"%char].
Proof.
  unfold ArrayRef.as_vector, ArrayRef.always. cbn [ArrayRef.elements].
  rewrite !as_vector_loop_filter_map. cbn [app].
  assert (E : filter (fun _ : native T => true) (map (as_ T) A)
              = map (as_ T) A).
  { induction A as [ | n A IH ]; cbn [map filter];
      [ reflexivity | rewrite IH; reflexivity ]. }
  rewrite E, length_map.
  repeat match goal with |- _ /\ _ => split end; try reflexivity.
  - intros a l m. repeat split.
  - intros l m. repeat split.
  - intros T' l m. destruct T' as [ a | | | ]; repeat split.
  - intros n S. destruct n; try discriminate S; reflexivity.
  - intros a n S. destruct n; try discriminate S; reflexivity.
Qed.

End lenient_vector.

(** C4 fails as stated, in two places.  For [T = char] an element that does
    not convert contributes a space, which is not the zero of [char]: the
    array holding one null node gives the one space.  And a string element
    that the parser would reject can contribute a number other than zero:
    the text ["-"] is rejected, yet a node that borrows this one byte from
    the text ["-5"] reads as [-5]. *)
Lemma as_vector_fallback_is_not_always_zero :
  (forall (lower_string : string -> string)
          (strtod : string -> conversion spec_float)
          (unrepresentable : spec_float -> Z)
          (to_string_double : spec_float -> string),
      ArrayRef.as_vector lower_string strtod unrepresentable
        to_string_double TChar (ArrayRef.always TChar) (kArray [kNull])
      = [" "%char]
      /\ ArrayRef.as_vector lower_string strtod unrepresentable
           to_string_double (TArith (TInt limits.Int32))
           (ArrayRef.always (TArith (TInt limits.Int32)))
           (kArray [kConstString "-" "5"])
         = [- 5])
  /\ " "%char <> NUL
  /\ GetStringLength (kConstString "-" "5") = 1%nat
  /\ detail.parse_signed limits.Int32 "-" = None.
Proof.
  split; [ intros; split; reflexivity | ].
  split; [ discriminate | split; reflexivity ].
Qed.

(** ** [ObjectRef]: present-or-create indexing and [find] *)

(** [FindMember] stops at [MemberEnd] exactly when no member has the
    name. *)
Lemma find_from_end (m : list (string * Value)) (name : string) :
  find_from m name = List.length m <-> ~ In name (map fst m).
Proof.
  induction m as [ | [k x] m IH ]; cbn [find_from List.length map fst In].
  - split; [ intros _ [] | reflexivity ].
  - destruct (String.eqb_spec k name) as [E | E].
    + split; [ discriminate | intros H; exfalso; apply H; left; exact E ].
    + split.
      * intros L [F | F]; [ exact (E F) | ].
        apply IH; [ lia | exact F ].
      * intros H. f_equal. apply IH. intros F. apply H. right. exact F.
Qed.

Lemma find_from_le (m : list (string * Value)) (name : string) :
  (find_from m name <= List.length m)%nat.
Proof.
  induction m as [ | [k x] m IH ]; cbn [find_from List.length];
    [ lia | destruct (String.eqb k name); lia ].
Qed.

(** The three overloads of [operator[]] differ in the key they take from
    their argument only. *)
Lemma subscript_c_str_key (value_ : Value) (name : string) :
  ObjectRef.subscript_c_str value_ name
  = ObjectRef.subscript value_ (c_str name).
Proof. reflexivity. Qed.

Lemma subscript_view_key (value_ : Value) (name : string) :
  ObjectRef.subscript_view value_ name = ObjectRef.subscript value_ name.
Proof. reflexivity. Qed.

(** C2.  On an object node and a key [k] that no member has,
    [operator[](k)] appends a member named [k] with a null value, so the
    member count grows by exactly one, and the reference it returns is to
    that new, last member; [find(k)] on the same node leaves the node as it
    is and returns no reference.  This holds for each overload of
    [operator[]]: for a [std::string] and for a [string_view], whose key is
    their [length()] bytes, and for a [const char*], which is what a string
    literal selects and whose key is the bytes up to its NUL.  On the empty
    object, indexing with the literal ["missing_key"] gives the object of
    that one null member. *)
Theorem subscript_creates_find_does_not
    (members : list (string * Value)) (k : string) :
  ~ In k (map fst members) ->
  let object := kObject members in
  let after := fst (ObjectRef.subscript object k) in
  let ref := snd (ObjectRef.subscript object k) in
  after = kObject (members ++ [(k, kNull)])
  /\ ObjectRef.size after = S (ObjectRef.size object)
  /\ ref = ObjectRef.size object
  /\ nth_error (Members after) ref = Some (k, kNull)
  /\ ObjectRef.slot after ref = Some kNull
  /\ fst (ObjectRef.find object k) = object
  /\ ObjectRef.size (fst (ObjectRef.find object k)) = ObjectRef.size object
  /\ snd (ObjectRef.find object k) = None
  /\ ObjectRef.subscript_view object k = (after, ref)
  /\ (forall name : string,
         c_str name = k ->
         ObjectRef.subscript_c_str object name = (after, ref))
  /\ ObjectRef.subscript_c_str (kObject []) "missing_key"
     = (kObject [("missing_key", kNull)], O)
  /\ ObjectRef.find (kObject []) "missing_key" = (kObject [], None).
Proof.
  intros Hk. cbv zeta.
  change (ObjectRef.subscript_view (kObject members) k)
    with (ObjectRef.subscript (kObject members) k).
  assert (C : forall name : string,
             c_str name = k ->
             ObjectRef.subscript_c_str (kObject members) name
             = (fst (ObjectRef.subscript (kObject members) k),
                snd (ObjectRef.subscript (kObject members) k))).
  { intros name E. rewrite subscript_c_str_key, E.
    destruct (ObjectRef.subscript (kObject members) k). reflexivity. }
  revert C.
  apply find_from_end in Hk.
  unfold ObjectRef.subscript, ObjectRef.find, ObjectRef.size, ObjectRef.slot,
    FindMember, MemberEnd, MemberCount.
  cbn [Members AddMember]. rewrite Hk, Nat.eqb_refl.
  cbn [fst snd negb Members].
  rewrite length_app. cbn [List.length].
  replace (List.length members + 1 - 1)%nat with (List.length members)
    by lia.
  rewrite nth_error_app2 by lia. rewrite Nat.sub_diag.
  intros C.
  repeat match goal with |- _ /\ _ => split end;
    try reflexivity; try lia.
  exact C.
Qed.

(** The hypothesis of C2 is met by the object [{"a": 1}] and the key
    ["b"], also when it is given as a literal. *)
Lemma subscript_creates_find_does_not_witness :
  fst (ObjectRef.subscript (kObject [("a", kNumberInt 1)]) "b")
  = kObject ([("a", kNumberInt 1)] ++ [("b", kNull)])
  /\ snd (ObjectRef.find (kObject [("a", kNumberInt 1)]) "b") = None
  /\ ObjectRef.subscript_c_str (kObject [("a", kNumberInt 1)]) "b"
     = (kObject [("a", kNumberInt 1); ("b", kNull)], 1%nat).
Proof.
  assert (H : ~ In "b" (map fst [("a", kNumberInt 1)])).
  { cbn. intros [E | []]. discriminate E. }
  pose proof (subscript_creates_find_does_not
                [("a", kNumberInt 1)] "b" H) as W.
  cbv zeta in W.
  destruct W as (W1 & _ & _ & _ & _ & _ & _ & W8 & _ & Wc & _).
  split; [ exact W1 | split; [ exact W8 | ] ].
  exact (Wc "b" eq_refl).
Defined.

(** ** Array indexing *)

(** C5.  For an array [A] and an index [i]: when [i >= A.size()] both
    [ArrayRef::operator[]] and [ValueRef::operator[](size_t)] throw; when
    [i < A.size()] neither throws, and both return the reference to the
    element at position [i]. *)
Theorem array_subscript_in_and_out_of_range (A : list Value) (i : N) :
  ((ArrayRef.size (kArray A) <= i)%N ->
   ArrayRef.subscript (kArray A) i
   = Throw (what "Array index out_of_range")
   /\ ValueRefViews.subscript (kArray A) i
      = Throw (what "ValueRef[idx] out_of_range"))
  /\ ((i < ArrayRef.size (kArray A))%N ->
      exists x : Value,
        nth_error A (N.to_nat i) = Some x
        /\ ArrayRef.subscript (kArray A) i = Ok (N.to_nat i)
        /\ ValueRefViews.subscript (kArray A) i = Ok (N.to_nat i)
        /\ ArrayRef.slot (kArray A) (N.to_nat i) = Some x).
Proof.
  unfold ValueRefViews.subscript, ArrayRef.subscript, ArrayRef.construct,
    ArrayRef.size, ArrayRef.slot.
  cbn [IsArray IsNull negb Size ArrayRef.elements].
  split; intros H.
  - apply N.leb_le in H. rewrite H. split; reflexivity.
  - pose proof H as L. apply N.leb_gt in L. rewrite L.
    destruct (nth_error A (N.to_nat i)) as [ x | ] eqn:E.
    + exists x. repeat split.
    + apply nth_error_None in E. lia.
Qed.

(** Both cases of C5 occur: position 1 of a two-element array, and
    position 2 of the same array. *)
Lemma array_subscript_in_and_out_of_range_witness :
  (exists x : Value,
      nth_error [kNumberInt 7; kNull] (N.to_nat 1) = Some x
      /\ ArrayRef.subscript (kArray [kNumberInt 7; kNull]) 1
         = Ok (N.to_nat 1)
      /\ ValueRefViews.subscript (kArray [kNumberInt 7; kNull]) 1
         = Ok (N.to_nat 1)
      /\ ArrayRef.slot (kArray [kNumberInt 7; kNull]) (N.to_nat 1) = Some x)
  /\ ArrayRef.subscript (kArray [kNumberInt 7; kNull]) 2
     = Throw (what "Array index out_of_range").
Proof.
  split.
  - apply (proj2 (array_subscript_in_and_out_of_range
                    [kNumberInt 7; kNull] 1)).
    reflexivity.
  - apply (proj1 (array_subscript_in_and_out_of_range
                    [kNumberInt 7; kNull] 2)).
    discriminate.
Defined.

(** ** Numeric text *)

Lemma isdigit_not_space (c : ascii) : isdigit c = true -> isspace c = false.
Proof.
  unfold isdigit, isspace. intros H.
  apply andb_true_iff in H. destruct H as [L U].
  apply N.leb_le in L. apply N.leb_le in U.
  apply orb_false_iff. split.
  - apply N.eqb_neq. lia.
  - apply andb_false_iff. right. apply N.leb_gt. lia.
Qed.

Lemma isdigit_not_NUL (c : ascii) : isdigit c = true -> Ascii.eqb c NUL = false.
Proof.
  intros H. destruct (Ascii.eqb_spec c NUL) as [-> | ]; [ discriminate H | ].
  reflexivity.
Qed.


Lemma digit_value_bounds (c : ascii) :
  isdigit c = true -> 0 <= digit_value c <= 9.
Proof.
  unfold isdigit, digit_value. intros H.
  apply andb_true_iff in H. destruct H as [L U].
  apply N.leb_le in L. apply N.leb_le in U. lia.
Qed.

Lemma skip_space_at_digit (c : ascii) (rest : string) :
  isspace c = false -> skip_space (String c rest) = (O, String c rest).
Proof. intros H. cbn [skip_space]. rewrite H. reflexivity. Qed.

Lemma take_sign_at_digit (c : ascii) (rest : string) :
  isdigit c = true -> take_sign (String c rest) = (false, O, String c rest).
Proof.
  intros H.
  destruct c as [ [] [] [] [] [] [] [] [] ]; try discriminate H; reflexivity.
Qed.

(** The digit loop takes a run of digits that ends the text or is followed
    by another byte. *)
Lemma take_digits_run (ds tail : string) (acc : Z) :
  all_digits ds = true ->
  match tail with
  | EmptyString => True
  | String c _ => isdigit c = false
  end ->
  take_digits (ds ++ tail) acc = (decimal_from ds acc, String.length ds).
Proof.
  unfold all_digits. revert acc.
  induction ds as [ | d ds IH ]; intros acc D T.
  - cbn [append decimal_from String.length].
    destruct tail as [ | c tail ]; [ reflexivity | ].
    cbn [take_digits]. rewrite T. reflexivity.
  - cbn [list_ascii_of_string forallb] in D.
    apply andb_true_iff in D. destruct D as [Dd D].
    cbn [append take_digits decimal_from String.length]. rewrite Dd.
    rewrite (IH _ D T). reflexivity.
Qed.

Lemma decimal_from_ge (ds : string) (acc : Z) :
  all_digits ds = true -> 0 <= acc -> 0 <= decimal_from ds acc.
Proof.
  unfold all_digits. revert acc.
  induction ds as [ | d ds IH ]; intros acc D A; cbn [decimal_from].
  - exact A.
  - cbn [list_ascii_of_string forallb] in D.
    apply andb_true_iff in D. destruct D as [Dd D].
    apply IH; [ exact D | ].
    pose proof (digit_value_bounds d Dd). lia.
Qed.

Lemma c_str_run (ds tail : string) :
  all_digits ds = true -> c_str (ds ++ tail) = ds ++ c_str tail.
Proof.
  unfold all_digits.
  induction ds as [ | d ds IH ]; intros D; [ reflexivity | ].
  cbn [list_ascii_of_string forallb] in D.
  apply andb_true_iff in D. destruct D as [Dd D].
  cbn [append c_str]. rewrite (isdigit_not_NUL d Dd), (IH D). reflexivity.
Qed.

Lemma append_empty_r (s : string) : s ++ "" = s.
Proof.
  induction s as [ | c s IH ]; [ reflexivity | ].
  cbn [append]. rewrite IH. reflexivity.
Qed.

Lemma char_at_after_run (ds : string) (c : ascii) (rest : string) :
  char_at (ds ++ String c rest) (String.length ds) = c.
Proof.
  unfold char_at.
  induction ds as [ | d ds IH ]; [ reflexivity | ].
  cbn [append String.length get]. exact IH.
Qed.


(** [strtol] and [strtoul] on a run of digits followed by [tail]. *)
Lemma strtol_run (ds tail : string) :
  all_digits ds = true -> ds <> "" ->
  match tail with
  | EmptyString => True
  | String c _ => isdigit c = false
  end ->
  strtol (ds ++ tail)
  = if limits.LONG_MAX <? decimal ds
    then mkConversion limits.LONG_MAX (String.length ds) true
    else mkConversion (decimal ds) (String.length ds) false.
Proof.
  intros D N T. unfold strtol.
  destruct ds as [ | d ds ]; [ congruence | ].
  pose proof D as D'. unfold all_digits in D'.
  cbn [list_ascii_of_string forallb] in D'.
  apply andb_true_iff in D'. destruct D' as [Dd _].
  change (String d ds ++ tail) with (String d (ds ++ tail)).
  rewrite (skip_space_at_digit d _ (isdigit_not_space d Dd)).
  rewrite (take_sign_at_digit d _ Dd).
  change (String d (ds ++ tail)) with (String d ds ++ tail).
  rewrite (take_digits_run _ _ 0 D T).
  fold (decimal (String d ds)).
  pose proof (decimal_from_ge (String d ds) 0 D (Z.le_refl 0)) as G.
  fold (decimal (String d ds)) in G.
  cbn [String.length Nat.add].
  replace (decimal (String d ds) <? limits.LONG_MIN) with false; [ reflexivity | ].
  symmetry. apply Z.ltb_ge. unfold limits.LONG_MIN. limits_numerals. lia.
Qed.

Lemma strtoul_run (ds tail : string) :
  all_digits ds = true -> ds <> "" ->
  match tail with
  | EmptyString => True
  | String c _ => isdigit c = false
  end ->
  strtoul (ds ++ tail)
  = if limits.ULONG_MAX <? decimal ds
    then mkConversion limits.ULONG_MAX (String.length ds) true
    else mkConversion (decimal ds) (String.length ds) false.
Proof.
  intros D N T. unfold strtoul.
  destruct ds as [ | d ds ]; [ congruence | ].
  pose proof D as D'. unfold all_digits in D'.
  cbn [list_ascii_of_string forallb] in D'.
  apply andb_true_iff in D'. destruct D' as [Dd _].
  change (String d ds ++ tail) with (String d (ds ++ tail)).
  rewrite (skip_space_at_digit d _ (isdigit_not_space d Dd)).
  rewrite (take_sign_at_digit d _ Dd).
  change (String d (ds ++ tail)) with (String d ds ++ tail).
  rewrite (take_digits_run _ _ 0 D T).
  fold (decimal (String d ds)).
  cbn [String.length Nat.add]. reflexivity.
Qed.

Lemma strtol_minus_run (ds : string) :
  all_digits ds = true -> ds <> "" ->
  strtol (String "-" ds)
  = if - decimal ds <? limits.LONG_MIN
    then mkConversion limits.LONG_MIN (S (String.length ds)) true
    else mkConversion (- decimal ds) (S (String.length ds)) false.
Proof.
  intros D N. unfold strtol.
  rewrite (skip_space_at_digit "-" ds eq_refl).
  cbn [take_sign].
  pose proof (take_digits_run ds "" 0 D I) as R.
  rewrite append_empty_r in R. rewrite R. fold (decimal ds).
  destruct ds as [ | d ds ]; [ congruence | ].
  pose proof (decimal_from_ge (String d ds) 0 D (Z.le_refl 0)) as G.
  fold (decimal (String d ds)) in G.
  cbn [String.length Nat.add].
  destruct (- decimal (String d ds) <? limits.LONG_MIN); [ reflexivity | ].
  replace (limits.LONG_MAX <? - decimal (String d ds)) with false;
    [ reflexivity | ].
  symmetry. apply Z.ltb_ge. unfold limits.LONG_MAX. limits_numerals. lia.
Qed.

Lemma c_str_all_digits (ds : string) : all_digits ds = true -> c_str ds = ds.
Proof.
  intros D. pose proof (c_str_run ds "" D) as E.
  rewrite append_empty_r in E. rewrite E. cbn [c_str].
  apply append_empty_r.
Qed.

Lemma run_not_empty (ds tail : string) :
  ds <> "" -> detail.empty (ds ++ tail) = false.
Proof. destruct ds; [ congruence | reflexivity ]. Qed.

(** Below the first NUL the buffer holds no NUL. *)
Lemma char_at_below_strlen (s : string) (e : nat) :
  (e < strlen s)%nat -> Ascii.eqb NUL (char_at (c_str s) e) = false.
Proof.
  unfold char_at. revert e.
  induction s as [ | c s IH ]; intros e L; cbn [strlen] in L; [ lia | ].
  cbn [c_str]. destruct (Ascii.eqb c NUL) eqn:C; [ lia | ].
  destruct e as [ | e ]; cbn [get].
  - rewrite Ascii.eqb_sym. exact C.
  - apply IH. lia.
Qed.


Section integer_text.

Variable t : limits.IntTy.

(** Digits followed by a byte that is neither a digit nor NUL. *)
Lemma parse_signed_trailing (ds : string) (c : ascii) (rest : string) :
  all_digits ds = true -> ds <> "" ->
  isdigit c = false -> c <> NUL ->
  detail.parse_signed t (ds ++ String c rest) = None.
Proof.
  intros D N Hc Hn. unfold detail.parse_signed.
  rewrite (run_not_empty _ _ N). cbn [negb].
  rewrite (c_str_run _ _ D). cbn [c_str].
  replace (Ascii.eqb c NUL) with false
    by (symmetry; apply Ascii.eqb_neq; exact Hn).
  rewrite (strtol_run ds (String c (c_str rest)) D N Hc).
  assert (Ec : Ascii.eqb NUL c = false)
    by (apply Ascii.eqb_neq; congruence).
  destruct (limits.LONG_MAX <? decimal ds);
    cbn [conv_end conv_value conv_erange];
    rewrite char_at_after_run, Ec, andb_false_r; reflexivity.
Qed.

Lemma parse_unsigned_trailing (ds : string) (c : ascii) (rest : string) :
  all_digits ds = true -> ds <> "" ->
  isdigit c = false -> c <> NUL ->
  detail.parse_unsigned t (ds ++ String c rest) = None.
Proof.
  intros D N Hc Hn. unfold detail.parse_unsigned.
  destruct (negb (detail.empty (ds ++ String c rest))
            && detail.find_minus_is_npos (ds ++ String c rest));
    [ | reflexivity ].
  rewrite (c_str_run _ _ D). cbn [c_str].
  replace (Ascii.eqb c NUL) with false
    by (symmetry; apply Ascii.eqb_neq; exact Hn).
  rewrite (strtoul_run ds (String c (c_str rest)) D N Hc).
  assert (Ec : Ascii.eqb NUL c = false)
    by (apply Ascii.eqb_neq; congruence).
  destruct (limits.ULONG_MAX <? decimal ds);
    cbn [conv_end conv_value conv_erange];
    rewrite char_at_after_run, Ec, andb_false_r; reflexivity.
Qed.

(** A number above the largest value of [T]. *)
Lemma parse_signed_above (ds : string) :
  all_digits ds = true -> ds <> "" ->
  limits.max t < decimal ds ->
  detail.parse_signed t ds = None.
Proof.
  intros D N H. unfold detail.parse_signed.
  rewrite (c_str_all_digits ds D).
  pose proof (strtol_run ds "" D N I) as R.
  rewrite append_empty_r in R. rewrite R.
  destruct (detail.empty ds); [ reflexivity | ]. cbn [negb].
  destruct (limits.LONG_MAX <? decimal ds);
    cbn [conv_end conv_value conv_erange].
  - rewrite andb_false_r. reflexivity.
  - replace (decimal ds <=? limits.max t) with false
      by (symmetry; apply Z.leb_gt; exact H).
    rewrite andb_false_r. reflexivity.
Qed.

(** A number below the smallest value of [T]. *)
Lemma parse_signed_below (ds : string) :
  all_digits ds = true -> ds <> "" ->
  - decimal ds < limits.min t ->
  detail.parse_signed t (String "-" ds) = None.
Proof.
  intros D N H. unfold detail.parse_signed. cbn [detail.empty negb].
  assert (E : c_str (String "-" ds) = String "-" ds).
  { cbn [c_str]. change (Ascii.eqb "-" NUL) with false.
    rewrite (c_str_all_digits ds D). reflexivity. }
  rewrite E, (strtol_minus_run ds D N).
  destruct (- decimal ds <? limits.LONG_MIN);
    cbn [conv_end conv_value conv_erange].
  - rewrite andb_false_r. reflexivity.
  - replace (limits.min t <=? - decimal ds) with false
      by (symmetry; apply Z.leb_gt; exact H).
    rewrite andb_false_r. reflexivity.
Qed.

Lemma parse_unsigned_above (ds : string) :
  all_digits ds = true -> ds <> "" ->
  limits.max t < decimal ds ->
  detail.parse_unsigned t ds = None.
Proof.
  intros D N H. unfold detail.parse_unsigned.
  rewrite (c_str_all_digits ds D).
  pose proof (strtoul_run ds "" D N I) as R.
  rewrite append_empty_r in R. rewrite R.
  destruct (negb (detail.empty ds) && detail.find_minus_is_npos ds);
    [ | reflexivity ].
  destruct (limits.ULONG_MAX <? decimal ds);
    cbn [conv_end conv_value conv_erange].
  - rewrite andb_false_r. reflexivity.
  - replace (decimal ds <=? limits.max t) with false
      by (symmetry; apply Z.leb_gt; exact H).
    rewrite andb_false_r. reflexivity.
Qed.

(** What the conversion routine reports decides the result: no conversion,
    a stop before the end of the text, a range error and a value that [T]
    does not hold are refused. *)
Lemma parse_signed_stopped (s : string) :
  conv_end (strtol (c_str s)) = O
  \/ (conv_end (strtol (c_str s)) < strlen s)%nat
  \/ conv_erange (strtol (c_str s)) = true
  \/ limits.in_range t (conv_value (strtol (c_str s))) = false ->
  detail.parse_signed t s = None.
Proof.
  intros H. unfold detail.parse_signed.
  destruct (negb (detail.empty s)); [ | reflexivity ].
  destruct H as [H | [H | [H | H]]].
  - rewrite H. reflexivity.
  - rewrite (char_at_below_strlen s _ H), andb_false_r. reflexivity.
  - rewrite H. cbn [negb]. rewrite andb_false_r. reflexivity.
  - unfold limits.in_range in H. apply andb_false_iff in H.
    destruct H as [H | H]; rewrite H, ?andb_false_r; reflexivity.
Qed.

Lemma parse_unsigned_stopped (s : string) :
  conv_end (strtoul (c_str s)) = O
  \/ (conv_end (strtoul (c_str s)) < strlen s)%nat
  \/ conv_erange (strtoul (c_str s)) = true
  \/ limits.in_range t (conv_value (strtoul (c_str s))) = false ->
  detail.parse_unsigned t s = None.
Proof.
  intros H. unfold detail.parse_unsigned.
  destruct (negb (detail.empty s) && detail.find_minus_is_npos s);
    [ | reflexivity ].
  destruct H as [H | [H | [H | H]]].
  - rewrite H. reflexivity.
  - rewrite (char_at_below_strlen s _ H), andb_false_r. reflexivity.
  - rewrite H. cbn [negb]. rewrite andb_false_r. reflexivity.
  - unfold limits.in_range in H. apply andb_false_iff in H.
    destruct H as [H | H]; rewrite H, ?andb_false_r; reflexivity.
Qed.



End integer_text.

Lemma parse_floating_stopped
    (strtod : string -> conversion spec_float)
    (to_T : spec_float -> spec_float) (s : string) :
  conv_end (strtod (c_str s)) = O
  \/ (conv_end (strtod (c_str s)) < strlen s)%nat
  \/ conv_erange (strtod (c_str s)) = true ->
  detail.parse_floating strtod to_T s = None.
Proof.
  intros H. unfold detail.parse_floating.
  destruct (negb (detail.empty s)); [ | reflexivity ].
  destruct H as [H | [H | H]].
  - rewrite H. reflexivity.
  - rewrite (char_at_below_strlen s _ H), andb_false_r. reflexivity.
  - rewrite H. cbn [negb]. rewrite andb_false_r. reflexivity.
Qed.

(** ** What the numeric text parser refuses *)

(** [std::string::find] sees a minus sign wherever it stands. *)
Lemma find_minus_present (value : string) :
  In "-"%char (list_ascii_of_string value) ->
  detail.find_minus_is_npos value = false.
Proof.
  induction value as [ | c value IH ]; intros H; [ destruct H | ].
  cbn [detail.find_minus_is_npos].
  destruct (Ascii.eqb_spec c "-") as [ | Hc ]; [ reflexivity | ].
  apply IH. destruct H as [H | H]; [ congruence | exact H ].
Qed.

Lemma parse_unsigned_minus_first (t : limits.IntTy) (ds : string) :
  detail.parse_unsigned t (String "-" ds) = None.
Proof. reflexivity. Qed.

(** C10.  Whatever unsigned target is asked for, a text that holds a minus
    sign anywhere yields no value, although [strtoul] converts such a text:
    on ["-1"] it consumes both bytes and returns [ULONG_MAX] with no range
    error. *)
Theorem parse_unsigned_refuses_minus (t : limits.IntTy) (value : string) :
  In "-"%char (list_ascii_of_string value) ->
  detail.parse_unsigned t value = None
  /\ strtoul "-1" = mkConversion limits.ULONG_MAX 2 false.
Proof.
  intros H. split; [ | reflexivity ].
  unfold detail.parse_unsigned.
  rewrite (find_minus_present value H), andb_false_r. reflexivity.
Qed.

(** The hypothesis of C10 is met by the text ["-1"]. *)
Lemma parse_unsigned_refuses_minus_witness :
  In "-"%char (list_ascii_of_string "-1")
  /\ detail.parse_unsigned limits.UInt32 "-1" = None.
Proof.
  assert (H : In "-"%char (list_ascii_of_string "-1"))
    by (left; reflexivity).
  split; [ exact H | ].
  exact (proj1 (parse_unsigned_refuses_minus limits.UInt32 "-1" H)).
Defined.

(** What is read through [c_str()] is read up to the first NUL. *)
Lemma c_str_idempotent (s : string) : c_str (c_str s) = c_str s.
Proof.
  induction s as [ | c s IH ]; [ reflexivity | ].
  cbn [c_str]. destruct (Ascii.eqb c NUL) eqn:E; [ reflexivity | ].
  cbn [c_str]. rewrite E, IH. reflexivity.
Qed.

Lemma find_minus_c_str (s : string) :
  detail.find_minus_is_npos s = true ->
  detail.find_minus_is_npos (c_str s) = true.
Proof.
  induction s as [ | c s IH ]; [ reflexivity | ].
  cbn [detail.find_minus_is_npos c_str].
  destruct (Ascii.eqb c "-") eqn:M; [ discriminate | ].
  intros H. destruct (Ascii.eqb c NUL); [ reflexivity | ].
  cbn [detail.find_minus_is_npos]. rewrite M. apply IH. exact H.
Qed.

(** The signed overload looks at the bytes before the first NUL only. *)
Lemma parse_signed_c_str (t : limits.IntTy) (s : string) :
  detail.parse_signed t s = detail.parse_signed t (c_str s).
Proof.
  unfold detail.parse_signed. rewrite c_str_idempotent.
  destruct s as [ | c s ]; [ reflexivity | ].
  cbn [detail.empty negb].
  destruct (c_str (String c s)) eqn:E; reflexivity.
Qed.

(** The unsigned overload does so too, once its search for a minus sign,
    which runs over all the bytes, has found none. *)
Lemma parse_unsigned_c_str (t : limits.IntTy) (s : string) :
  detail.parse_unsigned t s
  = if detail.find_minus_is_npos s
    then detail.parse_unsigned t (c_str s)
    else None.
Proof.
  unfold detail.parse_unsigned. rewrite c_str_idempotent.
  destruct (detail.find_minus_is_npos s) eqn:M;
    [ | rewrite andb_false_r; reflexivity ].
  rewrite (find_minus_c_str s M), !andb_true_r.
  destruct s as [ | c s ]; [ reflexivity | ].
  cbn [detail.empty negb].
  destruct (c_str (String c s)) eqn:E; reflexivity.
Qed.

Lemma parse_floating_c_str
    (strtod : string -> conversion spec_float)
    (to_T : spec_float -> spec_float) (s : string) :
  conv_end (strtod "") = O ->
  detail.parse_floating strtod to_T s
  = detail.parse_floating strtod to_T (c_str s).
Proof.
  intros H. unfold detail.parse_floating. rewrite c_str_idempotent.
  destruct s as [ | c s ]; [ reflexivity | ].
  cbn [detail.empty negb].
  destruct (c_str (String c s)) eqn:E; [ | reflexivity ].
  rewrite H. reflexivity.
Qed.

(** The text ["12"], a NUL byte, and a minus sign. *)
Lemma twelve_NUL_minus_has_minus :
  In "-"%char (list_ascii_of_string ("12" ++ String NUL "-")).
Proof. right. right. right. left. reflexivity. Qed.

(** C7 fails as stated, in two places.  The four-byte text
    ['1' '2' NUL 'x'] is parsed only up to its second byte, two bytes are
    left over, and the strict parser nevertheless yields 12, for signed and
    for unsigned targets.  And the result depends on the locale: ["1.5"] is
    read as a number where the radix character is a point, and refused
    where it is a comma. *)
Lemma parse_reads_c_string_and_locale :
  String.length twelve_NUL_x = 4%nat
  /\ conv_end (strtol (c_str twelve_NUL_x)) = 2%nat
  /\ detail.parse_signed limits.Int32 twelve_NUL_x = Some 12
  /\ detail.parse_unsigned limits.UInt32 twelve_NUL_x = Some 12
  /\ detail.parse_floating (strtod_locale ".") (fun d => d) "1.5"
     = Some (S754_finite false 6755399441055744 (-52))
  /\ detail.parse_floating (strtod_locale ",") (fun d => d) "1.5" = None.
Proof. repeat split; vm_compute; reflexivity. Qed.

Section refusals.

Variable lower_string : string -> string.
Variable strtod : string -> conversion spec_float.

#[local] Abbreviation parse := (detail.parse lower_string strtod).
#[local] Abbreviation parse_default :=
  (detail.parse_default lower_string strtod).

(** C7, as the code has it.  The strict parser yields no value
    - on the empty text;
    - when the conversion routine, run on the text as [c_str()] shows it
      (the bytes before the first NUL), converts nothing, stops before the
      end of that C string, or reports a range error;
    - for an integer target, when the number converted is outside the
      range of the target: so on digits followed by a byte that is neither
      a digit nor NUL, on a number above the maximum and on one below the
      minimum;
    - for an unsigned target, whenever a minus sign stands anywhere among
      the bytes of the text, also after a NUL byte.
    Apart from that search for a minus sign the bytes after a NUL are not
    looked at: the parser gives on a text what it gives on the bytes before
    its first NUL, and 12 on ['1' '2' NUL 'x'].  Where the strict parser
    yields nothing the permissive one returns its default, which is zero
    where [as<T>] calls it.  What is said of floating targets holds
    whatever [strtod] does; the integer routines are those of the "C"
    locale.  What is accepted depends on the locale: with a point as radix
    character ["1.5"] is one and a half, with a comma ["1.5"] is refused
    and ["1,5"] is one and a half. *)
Theorem parse_refuses_empty_partial_and_out_of_range :
  (forall a : Arith, parse a "" = None)
  /\ (forall (t : limits.IntTy) (s : string),
         conv_end (strtol (c_str s)) = O
         \/ (conv_end (strtol (c_str s)) < strlen s)%nat
         \/ conv_erange (strtol (c_str s)) = true
         \/ limits.in_range t (conv_value (strtol (c_str s))) = false ->
         detail.parse_signed t s = None)
  /\ (forall (t : limits.IntTy) (s : string),
         conv_end (strtoul (c_str s)) = O
         \/ (conv_end (strtoul (c_str s)) < strlen s)%nat
         \/ conv_erange (strtoul (c_str s)) = true
         \/ limits.in_range t (conv_value (strtoul (c_str s))) = false ->
         detail.parse_unsigned t s = None)
  /\ (forall (to_T : spec_float -> spec_float) (s : string),
         conv_end (strtod (c_str s)) = O
         \/ (conv_end (strtod (c_str s)) < strlen s)%nat
         \/ conv_erange (strtod (c_str s)) = true ->
         detail.parse_floating strtod to_T s = None)
  /\ (forall (t : limits.IntTy) (ds : string) (c : ascii) (rest : string),
         all_digits ds = true -> ds <> "" ->
         isdigit c = false -> c <> NUL ->
         parse (TInt t) (ds ++ String c rest) = None)
  /\ (forall (t : limits.IntTy) (ds : string),
         all_digits ds = true -> ds <> "" ->
         limits.max t < decimal ds ->
         parse (TInt t) ds = None)
  /\ (forall (t : limits.IntTy) (ds : string),
         all_digits ds = true -> ds <> "" ->
         - decimal ds < limits.min t ->
         parse (TInt t) (String "-" ds) = None)
  /\ (forall (a : Arith) (s : string) (default_value : arith_native a),
         parse a s = None -> parse_default a s default_value = default_value)
  /\ (forall (a : Arith) (s : string),
         parse a s = None -> parse_default a s (zero a) = zero a)
  /\ detail.parse_floating (strtod_locale ".") (fun d => d) "1.5"
     = Some (S754_finite false 6755399441055744 (-52))
  /\ detail.parse_floating (strtod_locale ",") (fun d => d) "1.5" = None
  /\ detail.parse_floating (strtod_locale ",") (fun d => d)
       (String "1" (String "," "5"))
     = Some (S754_finite false 6755399441055744 (-52))
  /\ (forall (t : limits.IntTy) (value : string),
         limits.is_signed t = false ->
         In "-"%char (list_ascii_of_string value) ->
         parse (TInt t) value = None)
  /\ parse (TInt limits.UInt32) ("12" ++ String NUL "-") = None
  /\ parse (TInt limits.Int32) ("12" ++ String NUL "-") = Some 12
  /\ (forall (t : limits.IntTy) (s : string),
         limits.is_signed t = true ->
         parse (TInt t) s = parse (TInt t) (c_str s))
  /\ (forall (t : limits.IntTy) (s : string),
         limits.is_signed t = false ->
         parse (TInt t) s
         = if detail.find_minus_is_npos s
           then parse (TInt t) (c_str s)
           else None)
  /\ (forall (to_T : spec_float -> spec_float) (s : string),
         conv_end (strtod "") = O ->
         detail.parse_floating strtod to_T s
         = detail.parse_floating strtod to_T (c_str s))
  /\ (forall (radix : ascii) (to_T : spec_float -> spec_float)
             (s : string),
         detail.parse_floating (strtod_locale radix) to_T s
         = detail.parse_floating (strtod_locale radix) to_T (c_str s))
  /\ parse (TInt limits.Int32) twelve_NUL_x = Some 12
  /\ parse (TInt limits.UInt32) twelve_NUL_x = Some 12.
Proof.
  repeat match goal with |- _ /\ _ => split end; try reflexivity.
  - intros [ | t | | ]; try reflexivity.
    cbn [detail.parse]. destruct (limits.is_signed t); reflexivity.
  - intros t s. apply parse_signed_stopped.
  - intros t s. apply parse_unsigned_stopped.
  - intros to_T s. apply parse_floating_stopped.
  - intros t ds c rest D N Hc Hn. cbn [detail.parse].
    destruct (limits.is_signed t);
      [ apply parse_signed_trailing | apply parse_unsigned_trailing ];
      assumption.
  - intros t ds D N H. cbn [detail.parse].
    destruct (limits.is_signed t);
      [ apply parse_signed_above | apply parse_unsigned_above ];
      assumption.
  - intros t ds D N H. cbn [detail.parse].
    destruct (limits.is_signed t);
      [ apply parse_signed_below; assumption
      | apply parse_unsigned_minus_first ].
  - intros a s d E. unfold detail.parse_default. rewrite E. reflexivity.
  - intros a s E. unfold detail.parse_default. rewrite E. reflexivity.
  - intros t value U M. cbn [detail.parse]. rewrite U.
    unfold detail.parse_unsigned.
    rewrite (find_minus_present value M), andb_false_r. reflexivity.
  - intros t s S. cbn [detail.parse]. rewrite S. apply parse_signed_c_str.
  - intros t s U. cbn [detail.parse]. rewrite U.
    apply parse_unsigned_c_str.
  - intros to_T s H. apply parse_floating_c_str. exact H.
  - intros radix to_T s. apply parse_floating_c_str. reflexivity.
Qed.

End refusals.

(** C7 at concrete texts, with the conversion routine of the "C" locale:
    ["12x"] has a byte after the number, ["1000"] does not fit [int8_t],
    ["1e999"] is out of the range of [double], a minus sign after a NUL
    makes the unsigned parser refuse, and the permissive parser returns 0
    on ["x"]. *)
Lemma parse_refuses_empty_partial_and_out_of_range_witness :
  detail.parse (fun s => s) strtod_C (TInt limits.Int32)
    ("12" ++ String "x" "") = None
  /\ detail.parse (fun s => s) strtod_C (TInt limits.Int8) "1000" = None
  /\ detail.parse_floating strtod_C (fun d => d) "1e999" = None
  /\ detail.parse_default (fun s => s) strtod_C (TInt limits.Int32) "x" 0
     = 0
  /\ detail.parse (fun s => s) strtod_C (TInt limits.UInt8)
       ("12" ++ String NUL "-") = None.
Proof.
  pose proof (parse_refuses_empty_partial_and_out_of_range
                (fun s => s) strtod_C)
    as (_ & _ & _ & Hf & Ht & Ha & _ & _ & Hz & _ & _ & _ & Hm & _).
  split; [ | split; [ | split; [ | split ] ] ].
  - apply (Ht limits.Int32 "12" "x"%char ""); [ reflexivity | | reflexivity | ];
      discriminate.
  - apply (Ha limits.Int8 "1000"); [ reflexivity | discriminate | reflexivity ].
  - apply (Hf (fun d => d) "1e999"). right. right. vm_compute. reflexivity.
  - apply (Hz (TInt limits.Int32) "x"). reflexivity.
  - apply (Hm limits.UInt8 ("12" ++ String NUL "-"));
      [ reflexivity | exact twelve_NUL_minus_has_minus ].
Defined.

(** The floating-point overload accepts what [strtod] converts in full
    without a range error: infinities, NaN and hexadecimal numbers
    included.  A decimal text whose value is subnormal and not exact is
    refused because [ERANGE] is set, an exact subnormal is read; a text of
    which [strtod] converts a part only is refused. *)
Lemma parse_floating_forms :
  detail.parse_floating strtod_C (fun d => d) "inf"
  = Some (S754_infinity false)
  /\ detail.parse_floating strtod_C (fun d => d) "-Infinity"
     = Some (S754_infinity true)
  /\ detail.parse_floating strtod_C (fun d => d) "NaN(7)" = Some S754_nan
  /\ detail.parse_floating strtod_C (fun d => d) "0x10"
     = Some (S754_finite false 4503599627370496 (-48))
  /\ detail.parse_floating strtod_C (fun d => d) "0x1p-1074"
     = Some (S754_finite false 1 (-1074))
  /\ detail.parse_floating strtod_C (fun d => d) "4.9e-324" = None
  /\ strtod_C "4.9e-324"
     = mkConversion (S754_finite false 1 (-1074)) 8 true
  /\ detail.parse_floating strtod_C (fun d => d) "infinite" = None
  /\ strtod_C "infinite" = mkConversion (S754_infinity false) 3 false
  /\ strtod_C "nan(abc" = mkConversion S754_nan 3 false
  /\ strtod_C "0x" = mkConversion (S754_zero false) 1 false
  /\ strtod_C "." = mkConversion (S754_zero false) 0 false.
Proof. repeat split; vm_compute; reflexivity. Qed.

(** The floating-point overload checks the range of [double] only: a text
    that [double] holds and [float] does not is converted, to an infinity,
    where the integer overloads compare with the limits of [T]. *)
Lemma parse_float_beyond_float_range :
  detail.parse_floating strtod_C ieee.float_of_double "1e39"
  = Some (S754_infinity false)
  /\ detail.parse_floating strtod_C (fun d => d) "1e999" = None.
Proof. split; vm_compute; reflexivity. Qed.

(** ** [to_string] *)

Lemma length_append (s1 s2 : string) :
  String.length (s1 ++ s2) = (String.length s1 + String.length s2)%nat.
Proof.
  induction s1 as [ | c s1 IH ]; [ reflexivity | ].
  cbn [append String.length]. rewrite IH. reflexivity.
Qed.

Lemma length_substring_prefix (n : nat) (s : string) :
  (n <= String.length s)%nat -> String.length (substring 0 n s) = n.
Proof.
  revert n. induction s as [ | c s IH ]; intros n L; cbn [String.length] in L.
  - replace n with O by lia. reflexivity.
  - destruct n as [ | n ]; [ reflexivity | ].
    cbn [substring String.length]. rewrite IH by lia. reflexivity.
Qed.

(** A text longer than [max_len] is cut to [max_len] bytes and three dots
    are appended; another text is left as it is. *)
Lemma truncated_spec (max_len : N) (str : string) :
  ((max_len < N.of_nat (String.length str))%N ->
   truncated max_len str = substring 0 (N.to_nat max_len) str ++ "..."
   /\ String.length (truncated max_len str) = (N.to_nat max_len + 3)%nat)
  /\ ((N.of_nat (String.length str) <= max_len)%N ->
      truncated max_len str = str).
Proof.
  unfold truncated. split; intros H.
  - pose proof H as L. apply N.ltb_lt in L. rewrite L.
    split; [ reflexivity | ].
    rewrite length_append, length_substring_prefix by lia. reflexivity.
  - apply N.ltb_ge in H. rewrite H. reflexivity.
Qed.

Section rendering.

Variable to_string_double : spec_float -> string.
Variable Accept : Value -> option string.

#[local] Abbreviation to_string :=
  (ValueRef.to_string to_string_double Accept).
#[local] Abbreviation save_to_buffer := (ValueRef.save_to_buffer Accept).

(** C8, as the code has it.  [to_string(max_len)] renders null as ["Null"],
    a boolean as ["true"] or ["false"], an integer by its decimal digits and
    a double by [std::to_string], each in full whatever [max_len] is; a
    string, an array and an object are rendered by the writer on a copy,
    and that text alone is cut to [max_len] bytes followed by ["..."] when
    it is longer than [max_len]: the result then has [max_len + 3] bytes. *)
Theorem to_string_by_kind (max_len : N) :
  to_string kNull max_len = "Null"
  /\ (forall b : bool,
         to_string (kBool b) max_len = if b then "true" else "false")
  /\ (forall i : Z,
         to_string (kNumberInt i) max_len
         = if valid_number (kNumberInt i) then to_string_int i else "")
  /\ (forall d : spec_float,
         to_string (kNumberDouble d) max_len = to_string_double d)
  /\ (forall (s beyond : string) (l : list Value)
             (m : list (string * Value)),
         to_string (kString s) max_len
         = truncated max_len (save_to_buffer (kString s))
         /\ to_string (kConstString s beyond) max_len
            = truncated max_len (save_to_buffer (kConstString s beyond))
         /\ to_string (kArray l) max_len
            = truncated max_len (save_to_buffer (kArray l))
         /\ to_string (kObject m) max_len
            = truncated max_len (save_to_buffer (kObject m)))
  /\ (forall str : string,
         truncated max_len str
         = (if (max_len <? N.of_nat (String.length str))%N
            then substring 0 (N.to_nat max_len) str ++ "..."
            else str)
         /\ String.length (truncated max_len str)
            = if (max_len <? N.of_nat (String.length str))%N
              then (N.to_nat max_len + 3)%nat
              else String.length str).
Proof.
  repeat match goal with |- _ /\ _ => split end.
  - reflexivity.
  - intros b. reflexivity.
  - intros i. destruct (valid_number (kNumberInt i)) eqn:V.
    + unfold ValueRef.to_string.
      cbn [IsNull IsNumber GetInt GetUint GetInt64 GetUint64 payload].
      apply (flag_cascade i to_string_int). exact V.
    + unfold ValueRef.to_string.
      cbn [IsNull IsNumber IsInt IsUint IsInt64 IsUint64 IsDouble].
      cbn [valid_number] in V.
      rewrite andb_false_iff, !Z.leb_gt in V.
      unfold limits.LONG_MIN, limits.ULONG_MAX in V. limits_numerals.
      replace (limits.in_range limits.Int32 i) with false
        by (symmetry; apply not_true_is_false; rewrite in_range_iff;
            limits_numerals; lia).
      replace (limits.in_range limits.UInt32 i) with false
        by (symmetry; apply not_true_is_false; rewrite in_range_iff;
            limits_numerals; lia).
      replace (limits.in_range limits.Int64 i) with false
        by (symmetry; apply not_true_is_false; rewrite in_range_iff;
            limits_numerals; lia).
      replace (limits.in_range limits.UInt64 i) with false
        by (symmetry; apply not_true_is_false; rewrite in_range_iff;
            limits_numerals; lia).
      reflexivity.
  - intros d. reflexivity.
  - intros s beyond l m. repeat split.
  - intros str. split; [ reflexivity | ].
    destruct (truncated_spec max_len str) as [Hlong Hshort].
    destruct (max_len <? N.of_nat (String.length str))%N eqn:L.
    + apply N.ltb_lt in L. apply Hlong. exact L.
    + apply N.ltb_ge in L. rewrite (Hshort L). reflexivity.
Qed.

End rendering.

(** C8 fails as stated.  Rendered with [max_len = 2], the null node gives
    the four bytes ["Null"] and the integer 12345 gives five digits: the
    text is longer than [max_len] and is neither cut nor followed by an
    ellipsis, whatever the writer and the rendering of doubles are. *)
Lemma to_string_keeps_scalars_whole :
  exists (n : Value) (max_len : N),
    forall (to_string_double : spec_float -> string)
           (Accept : Value -> option string),
      let full := ValueRef.to_string to_string_double Accept n SIZE_MAX in
      (max_len < N.of_nat (String.length full))%N
      /\ ValueRef.to_string to_string_double Accept n max_len = full
      /\ ValueRef.to_string to_string_double Accept n max_len
         <> truncated max_len full
      /\ ValueRef.to_string to_string_double Accept (kNumberInt 12345) max_len
         = "12345".
Proof.
  exists kNull, 2%N. intros to_string_double Accept. cbv zeta.
  repeat split. discriminate.
Qed.

(** * Further properties of the code *)

(** ** Size, assignment and reading back *)

(** X1.  [empty()] and [size()] agree on objects, arrays and strings; on every
    other kind the size is 0 and yet [empty()] answers false. *)
Theorem empty_and_size (v : Value) :
  let sized := IsObject v || IsArray v || IsString v in
  ValueRefAssign.empty v = sized && Nat.eqb (ValueRefAssign.size v) 0
  /\ (sized || Nat.eqb (ValueRefAssign.size v) 0 = true)
  /\ (sized || negb (ValueRefAssign.empty v) = true).
Proof.
  cbv zeta. destruct v as [ | b | i | d | s | s beyond | l | m ];
    repeat split.
Qed.



(** ** The ends of an array *)

Lemma removelast_snoc {A : Type} (l : list A) (x : A) :
  removelast (l ++ [x]) = l.
Proof. apply removelast_last. Qed.

(** X4.  Appending and then dropping the last element gives the array back;
    after [push_back(value)] the last slot, which [back()] designates, holds
    the node [value] was assigned to, and the slots before it are
    untouched.  [pop_back()] leaves an empty array as it is. *)
Theorem push_back_then_back_and_pop (l : list Value)
    (value : ValueRefAssign.Rhs) :
  let x := ValueRefAssign.assign kNull value in
  let pushed := ArrayRefMembers.push_back (kArray l) value in
  pushed = kArray (l ++ [x])
  /\ ArrayRef.size pushed = (ArrayRef.size (kArray l) + 1)%N
  /\ ArrayRefMembers.back pushed = Ok (List.length l)
  /\ ArrayRef.slot pushed (List.length l) = Some x
  /\ (forall i : nat, (i < List.length l)%nat ->
        ArrayRef.slot pushed i = ArrayRef.slot (kArray l) i)
  /\ ArrayRefMembers.pop_back pushed = kArray l
  /\ ArrayRefMembers.pop_back (kArray []) = kArray []
  /\ ArrayRefMembers.push_back_null (kArray l)
     = (kArray (l ++ [kNull]), List.length l).
Proof.
  cbv zeta.
  unfold ArrayRefMembers.push_back, ArrayRefMembers.push_back_null,
    ArrayRefMembers.back, ArrayRefMembers.pop_back, ArrayRef.size,
    ArrayRef.slot, Empty.
  cbn [PushBack Size ArrayRef.elements ArrayRefMembers.PopBack].
  rewrite !length_app. cbn [List.length].
  replace (Nat.eqb (List.length l + 1) 0) with false
    by (symmetry; apply Nat.eqb_neq; lia).
  cbn [negb]. rewrite removelast_snoc.
  replace (List.length l + 1 - 1)%nat with (List.length l) by lia.
  repeat match goal with |- _ /\ _ => split end; try reflexivity.
  - lia.
  - rewrite nth_error_app2 by lia. rewrite Nat.sub_diag. reflexivity.
  - intros i L. apply nth_error_app1. exact L.
Qed.

(** X5.  [front()] and [back()] throw on the empty array, and on no other:
    there they designate the first and the last slot. *)
Theorem front_and_back (x : Value) (l : list Value) :
  ArrayRefMembers.front (kArray [])
  = Throw (what "Empty Array front() is null")
  /\ ArrayRefMembers.back (kArray [])
     = Throw (what "Empty Array back() is null")
  /\ ArrayRefMembers.front (kArray (x :: l)) = Ok O
  /\ ArrayRef.slot (kArray (x :: l)) O = Some x
  /\ ArrayRefMembers.back (kArray (l ++ [x])) = Ok (List.length l)
  /\ ArrayRef.slot (kArray (l ++ [x])) (List.length l) = Some x.
Proof.
  unfold ArrayRefMembers.front, ArrayRefMembers.back, ArrayRef.slot, Empty.
  cbn [Size ArrayRef.elements]. rewrite length_app. cbn [List.length].
  replace (Nat.eqb (List.length l + 1) 0) with false
    by (symmetry; apply Nat.eqb_neq; lia).
  replace (List.length l + 1 - 1)%nat with (List.length l) by lia.
  repeat match goal with |- _ /\ _ => split end; try reflexivity.
  rewrite nth_error_app2 by lia. rewrite Nat.sub_diag. reflexivity.
Qed.

(** ** [resize] *)

Lemma iter_PushBack (k : nat) (x : Value) (l : list Value) :
  Nat.iter k (fun v => PushBack v x) (kArray l) = kArray (l ++ repeat x k).
Proof.
  induction k as [ | k IH ].
  - cbn [repeat]. rewrite app_nil_r. reflexivity.
  - rewrite Nat.iter_succ, IH. cbn [PushBack]. rewrite <- app_assoc.
    rewrite <- (repeat_cons k x). reflexivity.
Qed.

Lemma removelast_firstn_length {A : Type} (l : list A) (k : nat) :
  removelast (firstn (List.length l - k) l)
  = firstn (List.length l - S k) l.
Proof.
  destruct (Nat.le_gt_cases (List.length l) k) as [L | L].
  - replace (List.length l - k)%nat with O by lia.
    replace (List.length l - S k)%nat with O by lia. reflexivity.
  - replace (List.length l - k)%nat with (S (List.length l - S k)) by lia.
    apply removelast_firstn. lia.
Qed.

Lemma iter_PopBack (k : nat) (l : list Value) :
  Nat.iter k ArrayRefMembers.PopBack (kArray l)
  = kArray (firstn (List.length l - k) l).
Proof.
  induction k as [ | k IH ].
  - rewrite Nat.sub_0_r, firstn_all. reflexivity.
  - rewrite Nat.iter_succ, IH. cbn [ArrayRefMembers.PopBack].
    rewrite removelast_firstn_length. reflexivity.
Qed.

(** The 32-bit difference is the true one when that fits an [int]. *)
Lemma diff_exact (l : list Value) (n : N) :
  - 2 ^ 31 <= Z.of_N n - Z.of_nat (List.length l) < 2 ^ 31 ->
  ArrayRefMembers.diff (kArray l) n = Z.of_N n - Z.of_nat (List.length l).
Proof.
  intros H. unfold ArrayRefMembers.diff, limits.wrap_signed,
    limits.wrap_unsigned.
  cbn [Size].
  set (z := Z.of_N n - Z.of_nat (List.length l)) in *.
  change (2 ^ (32 - 1)) with 2147483648.
  change (2 ^ 32) with 4294967296.
  change (2 ^ 64) with 18446744073709551616.
  change (2 ^ 31) with 2147483648 in H.
  pose proof (Z.div_mod z 18446744073709551616 ltac:(lia)) as E1.
  pose proof (Z.mod_pos_bound z 18446744073709551616 ltac:(lia)) as B1.
  set (r := z mod 18446744073709551616) in *.
  set (q := z / 18446744073709551616) in *.
  assert (E : (r + 2147483648) mod 4294967296 = z + 2147483648).
  { symmetry. apply (Z.mod_unique _ _ (- 4294967296 * q)); lia. }
  rewrite E. lia.
Qed.

(** The rounds of [resize(n, value)] when [value] is the array itself. *)
Lemma iter_fill_this_array (k : nat) (l : list Value) :
  exists added : list Value,
    Nat.iter k
      (ArrayRefMembers.resize_fill_step ArrayRefMembers.fill_this_array)
      (kArray l)
    = kArray (l ++ added)
    /\ List.length added = k.
Proof.
  induction k as [ | k IH ].
  - exists []. rewrite app_nil_r. split; reflexivity.
  - destruct IH as (added & E & L).
    exists (added ++ [kArray (l ++ added)])%list.
    rewrite Nat.iter_succ, E. unfold ArrayRefMembers.resize_fill_step.
    cbn [ValueRefAssign.assign PushBack]. rewrite <- app_assoc.
    split; [ reflexivity | ].
    rewrite length_app. cbn [List.length]. lia.
Qed.

(** X6.  [resize(n)], when [n] differs from the size by less than [2^31]:
    the array gets exactly [n] elements, its first ones kept in place, the
    new ones null.  [resize(n, value)] does the same with a copy of
    [value] for each new element, provided [value] is not a reference to
    the array or into it.  A reference to the array itself is read anew on
    each round, so every new element is a copy of the array as it has
    grown so far.  The
    difference is held in an [int], so a request for [2^32] more elements
    than there are changes nothing. *)
Theorem resize_sets_the_size (l : list Value) (n : N) :
  - 2 ^ 31 < Z.of_N n - Z.of_nat (List.length l) < 2 ^ 31 ->
  ArrayRefMembers.resize (kArray l) n
  = kArray (firstn (N.to_nat n) l
            ++ repeat kNull (N.to_nat n - List.length l))
  /\ ArrayRef.size (ArrayRefMembers.resize (kArray l) n) = n
  /\ (forall value : ValueRefAssign.Rhs,
         ArrayRefMembers.resize_fill (kArray l) n
           (ArrayRefMembers.fill value)
         = kArray (firstn (N.to_nat n) l
                   ++ repeat (ValueRefAssign.assign kNull value)
                        (N.to_nat n - List.length l)))
  /\ (exists added : list Value,
         ArrayRefMembers.resize_fill (kArray l) n
           ArrayRefMembers.fill_this_array
         = kArray (firstn (N.to_nat n) l ++ added)
         /\ List.length added = (N.to_nat n - List.length l)%nat)
  /\ ArrayRef.size
       (ArrayRefMembers.resize_fill (kArray l) n
          ArrayRefMembers.fill_this_array) = n
  /\ ArrayRefMembers.resize_fill (kArray l) (N.of_nat (List.length l) + 2)
       ArrayRefMembers.fill_this_array
     = kArray (l ++ [kArray l; kArray (l ++ [kArray l])])
  /\ ArrayRefMembers.resize (kArray l)
       (N.of_nat (List.length l) + 4294967296)
     = kArray l.
Proof.
  intros H.
  assert (R : forall x : Value,
             (if 0 <? ArrayRefMembers.diff (kArray l) n
              then Nat.iter (Z.to_nat (ArrayRefMembers.diff (kArray l) n))
                     (fun v => PushBack v x) (kArray l)
              else if ArrayRefMembers.diff (kArray l) n <? 0
                   then Nat.iter
                          (Z.to_nat (- ArrayRefMembers.diff (kArray l) n))
                          ArrayRefMembers.PopBack (kArray l)
                   else kArray l)
             = kArray (firstn (N.to_nat n) l
                       ++ repeat x (N.to_nat n - List.length l))).
  { intros x. rewrite (diff_exact l n) by lia.
    destruct (0 <? Z.of_N n - Z.of_nat (List.length l)) eqn:P.
    - apply Z.ltb_lt in P. rewrite iter_PushBack.
      rewrite firstn_all2 by lia.
      replace (Z.to_nat (Z.of_N n - Z.of_nat (List.length l)))
        with (N.to_nat n - List.length l)%nat by lia.
      reflexivity.
    - apply Z.ltb_ge in P.
      replace (N.to_nat n - List.length l)%nat with O by lia.
      cbn [repeat]. rewrite app_nil_r.
      destruct (Z.of_N n - Z.of_nat (List.length l) <? 0) eqn:Q.
      + apply Z.ltb_lt in Q. rewrite iter_PopBack.
        replace (List.length l
                 - Z.to_nat (- (Z.of_N n - Z.of_nat (List.length l))))%nat
          with (N.to_nat n) by lia.
        reflexivity.
      + apply Z.ltb_ge in Q. rewrite firstn_all2 by lia. reflexivity. }
  assert (F : exists added : list Value,
             ArrayRefMembers.resize_fill (kArray l) n
               ArrayRefMembers.fill_this_array
             = kArray (firstn (N.to_nat n) l ++ added)
             /\ List.length added = (N.to_nat n - List.length l)%nat).
  { unfold ArrayRefMembers.resize_fill. rewrite (diff_exact l n) by lia.
    destruct (0 <? Z.of_N n - Z.of_nat (List.length l)) eqn:P.
    - apply Z.ltb_lt in P.
      destruct (iter_fill_this_array
                  (Z.to_nat (Z.of_N n - Z.of_nat (List.length l))) l)
        as (added & E & L).
      exists added. rewrite E, firstn_all2 by lia.
      split; [ reflexivity | lia ].
    - apply Z.ltb_ge in P. exists []. rewrite app_nil_r.
      split; [ | cbn [List.length]; lia ].
      destruct (Z.of_N n - Z.of_nat (List.length l) <? 0) eqn:Q.
      + apply Z.ltb_lt in Q. rewrite iter_PopBack.
        replace (List.length l
                 - Z.to_nat (- (Z.of_N n - Z.of_nat (List.length l))))%nat
          with (N.to_nat n) by lia.
        reflexivity.
      + apply Z.ltb_ge in Q. rewrite firstn_all2 by lia. reflexivity. }
  split; [ exact (R kNull) | ].
  split.
  { unfold ArrayRefMembers.resize. rewrite (R kNull).
    unfold ArrayRef.size. cbn [Size].
    rewrite length_app, length_firstn, repeat_length. lia. }
  split.
  { intros value. unfold ArrayRefMembers.resize_fill.
    change (ArrayRefMembers.resize_fill_step (ArrayRefMembers.fill value))
      with (fun v : Value => PushBack v (ValueRefAssign.assign kNull value)).
    apply R. }
  split; [ exact F | ].
  split.
  { destruct F as (added & E & L). rewrite E.
    unfold ArrayRef.size. cbn [Size].
    rewrite length_app, length_firstn, L. lia. }
  split.
  { unfold ArrayRefMembers.resize_fill, ArrayRefMembers.diff,
      limits.wrap_signed, limits.wrap_unsigned.
    cbn [Size].
    replace (Z.of_N (N.of_nat (List.length l) + 2)
             - Z.of_nat (List.length l)) with 2 by lia.
    change ((2 mod 2 ^ 64 + 2 ^ (32 - 1)) mod 2 ^ 32 - 2 ^ (32 - 1))
      with 2.
    change (0 <? 2) with true. cbv iota.
    change (Z.to_nat 2) with 2%nat.
    cbn [Nat.iter nat_rect]. unfold ArrayRefMembers.resize_fill_step.
    cbn [ValueRefAssign.assign PushBack]. rewrite <- app_assoc.
    reflexivity. }
  unfold ArrayRefMembers.resize, ArrayRefMembers.diff,
    limits.wrap_signed, limits.wrap_unsigned.
  cbn [Size].
  replace (Z.of_N (N.of_nat (List.length l) + 4294967296)
           - Z.of_nat (List.length l)) with 4294967296 by lia.
  reflexivity.
Qed.

(** The hypothesis holds when a two-element array is resized to 5, and
    when it is resized to 1. *)
Lemma resize_sets_the_size_witness :
  ArrayRefMembers.resize (kArray [kBool true; kNumberInt 7]) 5
  = kArray [kBool true; kNumberInt 7; kNull; kNull; kNull]
  /\ ArrayRefMembers.resize (kArray [kBool true; kNumberInt 7]) 1
     = kArray [kBool true].
Proof.
  split.
  - apply (resize_sets_the_size [kBool true; kNumberInt 7] 5). cbn. lia.
  - apply (resize_sets_the_size [kBool true; kNumberInt 7] 1). cbn. lia.
Defined.

(** ** [erase] on an array *)

(** X7.  [erase(pos)] on a position of the array takes that element out: the
    size goes down by one, the slots before [pos] keep their element, every
    slot from [pos] on now holds what the next slot held, and the iterator
    returned is [pos]. *)
Theorem erase_shifts_the_tail (l : list Value) (pos : nat) :
  (pos < List.length l)%nat ->
  let after := fst (ArrayRefMembers.erase (kArray l) pos) in
  snd (ArrayRefMembers.erase (kArray l) pos) = pos
  /\ after = kArray (firstn pos l ++ skipn (S pos) l)
  /\ Size after = (List.length l - 1)%nat
  /\ (forall i : nat, (i < pos)%nat ->
        ArrayRef.slot after i = ArrayRef.slot (kArray l) i)
  /\ (forall i : nat, (pos <= i)%nat ->
        ArrayRef.slot after i = ArrayRef.slot (kArray l) (S i)).
Proof.
  intros L. cbv zeta.
  unfold ArrayRefMembers.erase, ArrayRef.slot.
  cbn [fst snd ArrayRefMembers.Erase Size ArrayRef.elements].
  repeat match goal with |- _ /\ _ => split end; try reflexivity.
  - rewrite length_app, length_firstn, length_skipn. lia.
  - intros i Hi. rewrite nth_error_app1 by (rewrite length_firstn; lia).
    rewrite nth_error_firstn.
    replace (i <? pos)%nat with true
      by (symmetry; apply Nat.ltb_lt; exact Hi).
    reflexivity.
  - intros i Hi. rewrite nth_error_app2 by (rewrite length_firstn; lia).
    rewrite length_firstn, nth_error_skipn. f_equal. lia.
Qed.

Lemma erase_shifts_the_tail_witness :
  fst (ArrayRefMembers.erase
         (kArray [kNumberInt 1; kNumberInt 2; kNumberInt 3]) 1)
  = kArray [kNumberInt 1; kNumberInt 3].
Proof.
  apply (erase_shifts_the_tail
           [kNumberInt 1; kNumberInt 2; kNumberInt 3] 1).
  cbn. lia.
Defined.

(** ** Members of an object: where a name is found *)

Lemma find_from_present (m : list (string * Value)) (name : string) :
  In name (map fst m) <-> (find_from m name < List.length m)%nat.
Proof.
  pose proof (find_from_end m name) as E.
  pose proof (find_from_le m name) as L.
  split.
  - intros H. destruct (Nat.eq_dec (find_from m name) (List.length m)) as [C | C].
    + exfalso. apply (proj1 E C). exact H.
    + lia.
  - intros H. destruct (in_dec string_dec name (map fst m)) as [I | I];
      [ exact I | ].
    apply E in I. lia.
Qed.

Lemma find_from_app_r (m m' : list (string * Value)) (name : string) :
  ~ In name (map fst m) ->
  find_from (m ++ m') name = (List.length m + find_from m' name)%nat.
Proof.
  induction m as [ | [k x] m IH ]; intros H; [ reflexivity | ].
  cbn [map fst In] in H. cbn [app find_from List.length].
  destruct (String.eqb_spec k name) as [E | E].
  - exfalso. apply H. left. exact E.
  - rewrite IH; [ reflexivity | ]. intros F. apply H. right. exact F.
Qed.

Lemma find_from_app_l (m m' : list (string * Value)) (name : string) :
  In name (map fst m) -> find_from (m ++ m') name = find_from m name.
Proof.
  induction m as [ | [k x] m IH ]; intros H; [ destruct H | ].
  cbn [map fst In] in H. cbn [app find_from].
  destruct (String.eqb_spec k name) as [E | E]; [ reflexivity | ].
  f_equal. apply IH. destruct H as [H | H]; [ contradiction | exact H ].
Qed.

Lemma find_from_here (name : string) (x : Value)
    (post : list (string * Value)) :
  find_from ((name, x) :: post) name = O.
Proof. cbn [find_from]. rewrite String.eqb_refl. reflexivity. Qed.

(** A name that occurs has a first occurrence. *)
Lemma first_occurrence (m : list (string * Value)) (name : string) :
  In name (map fst m) ->
  exists pre x post,
    m = (pre ++ (name, x) :: post)%list /\ ~ In name (map fst pre).
Proof.
  induction m as [ | [k x] m IH ]; intros H; [ destruct H | ].
  destruct (string_dec k name) as [E | E].
  - subst k. exists [], x, m. split; [ reflexivity | intros [] ].
  - destruct H as [H | H]; [ contradiction | ].
    destruct (IH H) as (pre & y & post & -> & N).
    exists ((k, x) :: pre), y, post. split; [ reflexivity | ].
    intros [F | F]; [ exact (E F) | exact (N F) ].
Qed.

Lemma found_absent (m : list (string * Value)) (name : string) :
  ~ In name (map fst m) -> ObjectRefMembers.found (kObject m) name = None.
Proof.
  intros H. apply find_from_end in H.
  unfold ObjectRefMembers.found, FindMember, MemberEnd, MemberCount.
  cbn [Members]. rewrite H, Nat.eqb_refl. reflexivity.
Qed.

Lemma found_first (pre post : list (string * Value)) (name : string)
    (x : Value) :
  ~ In name (map fst pre) ->
  ObjectRefMembers.found (kObject (pre ++ (name, x) :: post)) name = Some x
  /\ FindMember (kObject (pre ++ (name, x) :: post)) name
     = List.length pre.
Proof.
  intros H.
  unfold ObjectRefMembers.found, FindMember, MemberEnd, MemberCount,
    ObjectRef.slot.
  cbn [Members]. rewrite (find_from_app_r _ _ _ H), find_from_here.
  rewrite Nat.add_0_r, length_app. cbn [List.length].
  replace (Nat.eqb (List.length pre) (List.length pre + S (List.length post)))
    with false by (symmetry; apply Nat.eqb_neq; lia).
  cbn [negb]. rewrite nth_error_app2 by lia. rewrite Nat.sub_diag.
  split; reflexivity.
Qed.

(** ** [insert]: names may repeat, and the first one answers *)


(** ** [erase] by name *)

(** X9.  [erase(name)] leaves an object without such a member as it is and
    returns the end iterator.  Otherwise it takes out the first member of
    that name and no other, the remaining members keeping their order; a
    later member of the same name, if there is one, is the one found
    afterwards. *)
Theorem erase_removes_the_first_match (name : string) :
  (forall m : list (string * Value),
      ~ In name (map fst m) ->
      ObjectRefMembers.erase (kObject m) name
      = (kObject m, MemberEnd (kObject m)))
  /\ (forall (pre post : list (string * Value)) (x : Value),
         ~ In name (map fst pre) ->
         ObjectRefMembers.erase (kObject (pre ++ (name, x) :: post)) name
         = (kObject (pre ++ post), List.length pre)
         /\ ObjectRefMembers.found (kObject (pre ++ post)) name
            = ObjectRefMembers.found (kObject post) name
         /\ (~ In name (map fst post) ->
             ObjectRefMembers.found (kObject (pre ++ post)) name = None)).
Proof.
  split.
  - intros m H. apply find_from_end in H.
    unfold ObjectRefMembers.erase, FindMember, MemberEnd, MemberCount.
    cbn [Members]. rewrite H, Nat.eqb_refl. reflexivity.
  - intros pre post x H.
    assert (F : ObjectRefMembers.found (kObject (pre ++ post)) name
                = ObjectRefMembers.found (kObject post) name).
    { destruct (in_dec string_dec name (map fst post)) as [I | I].
      - destruct (first_occurrence post name I) as (p & y & q & -> & N).
        rewrite app_assoc.
        rewrite (proj1 (found_first (pre ++ p) q name y
                          ltac:(rewrite map_app, in_app_iff; tauto))).
        rewrite (proj1 (found_first p q name y N)). reflexivity.
      - rewrite (found_absent post name I). apply found_absent.
        rewrite map_app, in_app_iff. tauto. }
    split; [ | split; [ exact F | ] ].
    + unfold ObjectRefMembers.erase.
      rewrite (proj2 (found_first pre post name x H)).
      unfold MemberEnd, MemberCount. cbn [Members].
      rewrite length_app. cbn [List.length].
      replace (Nat.eqb (List.length pre)
                 (List.length pre + S (List.length post)))
        with false by (symmetry; apply Nat.eqb_neq; lia).
      cbn [negb ObjectRefMembers.EraseMember].
      rewrite firstn_app, firstn_all, Nat.sub_diag. cbn [firstn].
      rewrite app_nil_r.
      replace (S (List.length pre))
        with (List.length (pre ++ [(name, x)]))
        by (rewrite length_app; cbn [List.length]; lia).
      replace (pre ++ (name, x) :: post)%list
        with ((pre ++ [(name, x)]) ++ post)%list
        by (rewrite <- app_assoc; reflexivity).
      rewrite skipn_app, skipn_all, Nat.sub_diag. reflexivity.
    + intros I. rewrite F. apply found_absent. exact I.
Qed.

Lemma erase_removes_the_first_match_witness :
  ObjectRefMembers.erase
    (kObject ([("a", kNumberInt 1)] ++ ("b", kNull) :: [("b", kBool true)]))
    "b"
  = (kObject ([("a", kNumberInt 1)] ++ [("b", kBool true)]), 1%nat)
  /\ ObjectRefMembers.erase (kObject [("a", kNumberInt 1)]) "b"
     = (kObject [("a", kNumberInt 1)], 1%nat).
Proof.
  destruct (erase_removes_the_first_match "b") as [Habsent Hpresent].
  assert (N : ~ In "b" (map fst [("a", kNumberInt 1)])).
  { cbn. intros [E | []]. discriminate E. }
  split.
  - apply (Hpresent [("a", kNumberInt 1)] [("b", kBool true)] kNull N).
  - apply (Habsent [("a", kNumberInt 1)] N).
Defined.

(** ** Present-or-create indexing, once and again *)

(** The facts about one call of [operator[](name)] on an object. *)
Lemma subscript_facts (m : list (string * Value))
    (name : string) :
  let after := fst (ObjectRef.subscript (kObject m) name) in
  let ref := snd (ObjectRef.subscript (kObject m) name) in
  ObjectRef.find after name = (after, Some ref)
  /\ ObjectRef.subscript after name = (after, ref)
  /\ ref = FindMember after name
  /\ (after = kObject m \/ after = kObject (m ++ [(name, kNull)]))
  /\ (In name (map fst m) -> after = kObject m)
  /\ ObjectRef.count after name = 1
  /\ HasMember after name = true.
Proof.
  cbv zeta.
  destruct (in_dec string_dec name (map fst m)) as [I | I].
  - pose proof (proj1 (find_from_present m name) I) as L.
    unfold ObjectRef.subscript, ObjectRef.find, ObjectRef.count, HasMember,
      FindMember, MemberEnd, MemberCount.
    cbn [Members].
    replace (Nat.eqb (find_from m name) (List.length m)) with false
      by (symmetry; apply Nat.eqb_neq; lia).
    cbn [fst snd negb Members].
    replace (Nat.eqb (find_from m name) (List.length m)) with false
      by (symmetry; apply Nat.eqb_neq; lia).
    cbn [negb]. repeat split. left. reflexivity.
  - pose proof (proj2 (find_from_end m name) I) as E.
    unfold ObjectRef.subscript, ObjectRef.find, ObjectRef.count, HasMember,
      FindMember, MemberEnd, MemberCount.
    cbn [Members AddMember]. rewrite E, Nat.eqb_refl.
    cbn [fst snd Members]. rewrite length_app. cbn [List.length].
    rewrite (find_from_app_r m _ name I), find_from_here, Nat.add_0_r.
    replace (List.length m + 1 - 1)%nat with (List.length m) by lia.
    replace (Nat.eqb (List.length m) (List.length m + 1)) with false
      by (symmetry; apply Nat.eqb_neq; lia).
    cbn [negb]. repeat split.
    + right. reflexivity.
    + intros F. contradiction.
Qed.

(** X10.  Whatever the object and the name, [operator[](name)] returns a
    reference to the first member of that name, which [find(name)] then
    returns too; it keeps the members there were, in place, adding at most
    one; and indexing a second time with the same name changes nothing and
    returns the same reference. *)
Theorem subscript_then_find_and_again (m : list (string * Value))
    (name : string) :
  let after := fst (ObjectRef.subscript (kObject m) name) in
  let ref := snd (ObjectRef.subscript (kObject m) name) in
  ObjectRef.find after name = (after, Some ref)
  /\ ObjectRef.subscript after name = (after, ref)
  /\ ref = FindMember after name
  /\ (after = kObject m \/ after = kObject (m ++ [(name, kNull)]))
  /\ (In name (map fst m) -> after = kObject m)
  /\ ObjectRef.count after name = 1.
Proof.
  cbv zeta.
  pose proof (subscript_facts m name) as H. cbv zeta in H.
  repeat split; apply H.
Qed.

(** ** [count], [find] and [has] *)

(** X11.  [count(name)] is 1 or 0, and 1 exactly when a member has the name,
    which is when [find(name)] returns a reference.  [has(name)] asks with
    the bytes before the first NUL of [name]: it agrees with the other two
    on a name without a NUL byte, and not in general. *)
Theorem count_find_and_has (m : list (string * Value)) (name : string) :
  (ObjectRef.count (kObject m) name = 1 <-> In name (map fst m))
  /\ (ObjectRef.count (kObject m) name = 0 <-> ~ In name (map fst m))
  /\ (snd (ObjectRef.find (kObject m) name) <> None
      <-> In name (map fst m))
  /\ (ObjectRef.has (kObject m) name = true
      <-> In (c_str name) (map fst m))
  /\ (c_str name = name ->
      (ObjectRef.has (kObject m) name = true
       <-> ObjectRef.count (kObject m) name = 1))
  /\ ObjectRef.has (kObject [("a", kNull)]) a_NUL_b = true
  /\ ObjectRef.count (kObject [("a", kNull)]) a_NUL_b = 0.
Proof.
  assert (C : forall k : string,
             Nat.eqb (find_from m k) (List.length m) = false
             <-> In k (map fst m)).
  { intros k. rewrite Nat.eqb_neq, find_from_present.
    pose proof (find_from_le m k). lia. }
  assert (H1 : ObjectRef.count (kObject m) name = 1 <-> In name (map fst m)).
  { unfold ObjectRef.count, FindMember, MemberEnd, MemberCount.
    cbn [Members]. rewrite <- (C name).
    destruct (Nat.eqb (find_from m name) (List.length m)); cbn [negb];
      split; intros H; try reflexivity; discriminate H. }
  assert (Hh : forall k : string,
             ObjectRef.has (kObject m) k = true
             <-> In (c_str k) (map fst m)).
  { intros k.
    unfold ObjectRef.has, HasMember, FindMember, MemberEnd, MemberCount.
    cbn [Members]. rewrite <- (C (c_str k)).
    destruct (Nat.eqb (find_from m (c_str k)) (List.length m)); cbn [negb];
      split; intros H; try reflexivity; discriminate H. }
  assert (H0 : ObjectRef.count (kObject m) name = 0
               <-> ~ In name (map fst m)).
  { unfold ObjectRef.count, FindMember, MemberEnd, MemberCount.
    cbn [Members]. rewrite <- (C name).
    destruct (Nat.eqb (find_from m name) (List.length m)); cbn [negb];
      split; intros H; try reflexivity; try discriminate H;
      try congruence; exfalso; apply H; reflexivity. }
  assert (Hf : snd (ObjectRef.find (kObject m) name) <> None
               <-> In name (map fst m)).
  { unfold ObjectRef.find, FindMember, MemberEnd, MemberCount.
    cbn [Members]. rewrite <- (C name).
    destruct (Nat.eqb (find_from m name) (List.length m)); cbn [negb snd];
      split; intros H; try reflexivity; try discriminate;
      exfalso; apply H; reflexivity. }
  split; [ exact H1 | ].
  split; [ exact H0 | ].
  split; [ exact Hf | ].
  split; [ apply Hh | ].
  split; [ | split; reflexivity ].
  intros E. rewrite Hh, E. symmetry. exact H1.
Qed.

(** ** Typed lookup *)

Lemma get_value_is_get_of_found (T : Target) (o : Value) (name : string) :
  ObjectRefMembers.get_value T o name
  = match ObjectRefMembers.found o name with
    | Some x => ValueRef.get T x
    | None => None
    end.
Proof.
  destruct T as [ [ | t | | ] | | | ]; reflexivity.
Qed.

(** X12.  [get_value<T>(name)] is the strict [get<T>] of the first member of
    that name, whatever members of the same name follow, and nothing when
    no member has the name; with a default, the default is returned in
    that case and when [get<T>] yields nothing. *)
Theorem get_value_reads_the_first_match (T : Target) (name : string) :
  (forall (m : list (string * Value)) (defval : native T),
      ~ In name (map fst m) ->
      ObjectRefMembers.get_value T (kObject m) name = None
      /\ ObjectRefMembers.get_value_default T (kObject m) name defval
         = defval)
  /\ (forall (pre post : list (string * Value)) (x : Value)
             (defval : native T),
         ~ In name (map fst pre) ->
         ObjectRefMembers.get_value T
           (kObject (pre ++ (name, x) :: post)) name
         = ValueRef.get T x
         /\ ObjectRefMembers.get_value_default T
              (kObject (pre ++ (name, x) :: post)) name defval
            = match ValueRef.get T x with
              | Some value => value
              | None => defval
              end).
Proof.
  split.
  - intros m defval H. unfold ObjectRefMembers.get_value_default.
    rewrite get_value_is_get_of_found, (found_absent m name H).
    split; reflexivity.
  - intros pre post x defval H. unfold ObjectRefMembers.get_value_default.
    rewrite get_value_is_get_of_found,
      (proj1 (found_first pre post name x H)).
    split; reflexivity.
Qed.

Lemma get_value_reads_the_first_match_witness :
  ObjectRefMembers.get_value (TArith (TInt limits.Int32))
    (kObject ([("a", kNull)] ++ ("n", kNumberInt 5)
              :: [("n", kNumberInt 6)])) "n"
  = Some 5
  /\ ObjectRefMembers.get_value_default (TArith (TInt limits.Int32))
       (kObject [("a", kNull)]) "n" 9 = 9.
Proof.
  destruct (get_value_reads_the_first_match
              (TArith (TInt limits.Int32)) "n") as [Habsent Hpresent].
  assert (N : ~ In "n" (map fst [("a", kNull)])).
  { cbn. intros [E | []]. discriminate E. }
  split.
  - apply (Hpresent [("a", kNull)] [("n", kNumberInt 6)]
             (kNumberInt 5) 0 N).
  - apply (Habsent [("a", kNull)] 9 N).
Defined.

(** ** [find_all] and [find_any] *)

(** X13.  [find_all(names)] holds exactly when every name of the list is the
    name of a member.  [find_any(names)] returns the end iterator exactly
    when none of them is, and otherwise the first member named by the
    first name of the list that the object has, in the order of the list
    and not of the object. *)
Theorem find_all_and_find_any (m : list (string * Value))
    (names : list string) :
  (ObjectRefMembers.find_all (kObject m) names = true
   <-> forall name, In name names -> In name (map fst m))
  /\ (ObjectRefMembers.find_any (kObject m) names = MemberEnd (kObject m)
      <-> forall name, In name names -> ~ In name (map fst m))
  /\ (forall (before after : list string) (name : string),
         names = (before ++ name :: after)%list ->
         (forall other, In other before -> ~ In other (map fst m)) ->
         In name (map fst m) ->
         ObjectRefMembers.find_any (kObject m) names
         = FindMember (kObject m) name).
Proof.
  assert (C : forall k : string,
             Nat.eqb (FindMember (kObject m) k) (MemberEnd (kObject m))
             = false <-> In k (map fst m)).
  { intros k. unfold FindMember, MemberEnd, MemberCount. cbn [Members].
    rewrite Nat.eqb_neq, find_from_present.
    pose proof (find_from_le m k). lia. }
  split; [ | split ].
  - induction names as [ | k names IH ]; cbn [ObjectRefMembers.find_all].
    + split; [ intros _ name [] | reflexivity ].
    + destruct (Nat.eqb (FindMember (kObject m) k) (MemberEnd (kObject m)))
        eqn:E.
      * split; [ discriminate | ]. intros H. exfalso.
        assert (I : In k (map fst m)) by (apply H; left; reflexivity).
        apply C in I. congruence.
      * rewrite IH. apply C in E. split.
        -- intros H name [-> | F]; [ exact E | exact (H name F) ].
        -- intros H name F. apply H. right. exact F.
  - induction names as [ | k names IH ]; cbn [ObjectRefMembers.find_any].
    + split; [ intros _ name [] | reflexivity ].
    + destruct (Nat.eqb (FindMember (kObject m) k) (MemberEnd (kObject m)))
        eqn:E; cbn [negb].
      * rewrite IH. split.
        -- intros H name [-> | F]; [ | exact (H name F) ].
           intros I. apply C in I. congruence.
        -- intros H name F. apply H. right. exact F.
      * split.
        -- intros H. apply Nat.eqb_neq in E. contradiction.
        -- intros H. exfalso. apply (H k); [ left; reflexivity | ].
           apply C. exact E.
  - intros before after name -> Hb I. clear - C Hb I.
    induction before as [ | k before IH ];
      cbn [app ObjectRefMembers.find_any].
    + apply C in I. rewrite I. reflexivity.
    + assert (E : Nat.eqb (FindMember (kObject m) k) (MemberEnd (kObject m))
                  = true).
      { destruct (Nat.eqb (FindMember (kObject m) k) (MemberEnd (kObject m)))
          eqn:E; [ reflexivity | ].
        exfalso. apply (Hb k); [ left; reflexivity | apply C; exact E ]. }
      rewrite E. cbn [negb]. apply IH.
      intros other F. apply Hb. right. exact F.
Qed.

(** ** Views and coercion *)

(** X14.  A view is constructed over a null node, which becomes an empty
    container of the view's kind, and over a node of that kind, which is
    left as it is; over every other node the constructor throws.  So
    construction succeeds exactly on these two kinds, and what it returns
    is of the kind of the view. *)
Theorem view_construction (v : Value) :
  ArrayRef.construct kNull = Ok (kArray [])
  /\ ObjectRef.construct kNull = Ok (kObject [])
  /\ (forall l, ArrayRef.construct (kArray l) = Ok (kArray l))
  /\ (forall m, ObjectRef.construct (kObject m) = Ok (kObject m))
  /\ ((exists a, ArrayRef.construct v = Ok a)
      <-> IsNull v || IsArray v = true)
  /\ ((exists o, ObjectRef.construct v = Ok o)
      <-> IsNull v || IsObject v = true)
  /\ (forall a, ArrayRef.construct v = Ok a -> IsArray a = true)
  /\ (forall o, ObjectRef.construct v = Ok o -> IsObject o = true).
Proof.
  repeat match goal with |- _ /\ _ => split end; try reflexivity.
  - split.
    + intros [a H]. destruct v; try discriminate H; reflexivity.
    + intros H. destruct v; try discriminate H; eexists; reflexivity.
  - split.
    + intros [o H]. destruct v; try discriminate H; reflexivity.
    + intros H. destruct v; try discriminate H; eexists; reflexivity.
  - intros a H. destruct v; try discriminate H; injection H as <-;
      reflexivity.
  - intros o H. destruct v; try discriminate H; injection H as <-;
      reflexivity.
Qed.

(** ** [ValueRef]: indexing by key and appending *)

(** X15.  [ValueRef::operator[](key)]: a null node becomes an object with the
    one member created; a node that is neither null nor an object makes
    it throw; an object is indexed as by its view, with the bytes of the
    key up to the first NUL, also for a [std::string] key.  [find] and
    [has] never throw: on a node that is no object they answer nothing and
    false. *)
Theorem subscript_by_key (v : Value) (name : string) :
  ValueRefViews.subscript_string kNull name
  = Ok (kObject [(c_str name, kNull)], O)
  /\ (forall m,
         ValueRefViews.subscript_string (kObject m) name
         = Ok (ObjectRef.subscript (kObject m) (c_str name)))
  /\ (IsNull v || IsObject v = false ->
      ValueRefViews.subscript_string v name
      = Throw (what "ValueRef[key] allow ObjectType"))
  /\ (IsObject v = false ->
      ValueRefViews.find v name = Ok (v, None)
      /\ ValueRefMembers.has v name = Ok false)
  /\ (forall m,
         ValueRefViews.find (kObject m) name
         = Ok (ObjectRef.find (kObject m) name)
         /\ ValueRefMembers.has (kObject m) name
            = Ok (ObjectRef.has (kObject m) name)).
Proof.
  split; [ reflexivity | ].
  split; [ reflexivity | ].
  split; [ intros H; destruct v; try discriminate H; reflexivity | ].
  split.
  - intros H. destruct v; try discriminate H; split; reflexivity.
  - intros m. split; reflexivity.
Qed.

(** X16.  What [v[key]] creates or reaches, [v.find(key)] finds, provided the
    key holds no NUL byte: on a null node and on an object, indexing by a
    [std::string] and then looking the same string up returns the same
    reference. *)
Theorem subscript_by_key_then_find (v after : Value) (name : string)
    (ref : nat) :
  c_str name = name ->
  ValueRefViews.subscript_string v name = Ok (after, ref) ->
  ValueRefViews.find after name = Ok (after, Some ref)
  /\ ValueRefMembers.has after name = Ok true
  /\ IsObject after = true.
Proof.
  intros E H.
  assert (O : exists m, after = fst (ObjectRef.subscript (kObject m) name)
                        /\ ref = snd (ObjectRef.subscript (kObject m) name)).
  { destruct v as [ | b | i | d | s | s beyond | l | m ];
      try discriminate H.
    - exists []. unfold ValueRefViews.subscript_string,
        ValueRefViews.subscript_c_str in H.
      cbn [IsNull SetObject ObjectRef.construct IsObject negb] in H.
      rewrite subscript_c_str_key, E in H.
      change (SetObject kNull) with (kObject []) in H.
      assert (P : ObjectRef.subscript (kObject []) name = (after, ref))
        by congruence.
      rewrite P. split; reflexivity.
    - exists m. unfold ValueRefViews.subscript_string,
        ValueRefViews.subscript_c_str in H.
      cbn [IsNull ObjectRef.construct IsObject negb] in H.
      rewrite subscript_c_str_key, E in H.
      assert (P : ObjectRef.subscript (kObject m) name = (after, ref))
        by congruence.
      rewrite P. split; reflexivity. }
  destruct O as (m & -> & ->).
  pose proof (subscript_facts m name) as F. cbv zeta in F.
  destruct F as (F & _ & _ & M & _ & _ & K).
  unfold ValueRefViews.find, ValueRefMembers.has, ObjectRef.has.
  rewrite E.
  destruct M as [M | M]; rewrite M in *;
    cbn [IsObject ObjectRef.construct IsNull negb];
    rewrite F, K; repeat split.
Qed.

Lemma subscript_by_key_then_find_witness :
  ValueRefViews.find (kObject [("k", kNull)]) "k"
  = Ok (kObject [("k", kNull)], Some O)
  /\ ValueRefMembers.has (kObject [("k", kNull)]) "k" = Ok true
  /\ IsObject (kObject [("k", kNull)]) = true.
Proof.
  exact (subscript_by_key_then_find kNull (kObject [("k", kNull)]) "k" O
           eq_refl eq_refl).
Defined.

(** X17.  [ValueRef::push_back(value)], [value] being a reference to a
    node other than the receiver: a null receiver becomes the array of the
    one copy of that node, an array gets the copy as its new last element,
    and on every other receiver the call throws, adding nothing.  When
    [value] is a reference to the receiver itself it is read after a null
    receiver has been made an array, so [v.push_back(v)] on a null [v]
    stores the array holding one empty array; on an array it appends a
    copy of the array as it was. *)
Theorem push_back_on_each_kind (v : Value)
    (value : ValueRefAssign.NodeRef) :
  (forall other : Value,
      ValueRefMembers.push_back kNull (ValueRefAssign.node other)
      = Ok (kArray [other]))
  /\ (forall (l : list Value) (other : Value),
         ValueRefMembers.push_back (kArray l) (ValueRefAssign.node other)
         = Ok (kArray (l ++ [other])))
  /\ ValueRefMembers.push_back kNull ValueRefAssign.this_node
     = Ok (kArray [kArray []])
  /\ (forall l : list Value,
         ValueRefMembers.push_back (kArray l) ValueRefAssign.this_node
         = Ok (kArray (l ++ [kArray l])))
  /\ (IsNull v || IsArray v = false ->
      ValueRefMembers.push_back v value
      = Throw (what "ValueRef::push_back allow ArrayType"))
  /\ ((exists after, ValueRefMembers.push_back v value = Ok after)
      <-> IsNull v || IsArray v = true).
Proof.
  split; [ reflexivity | ].
  split; [ reflexivity | ].
  split; [ reflexivity | ].
  split; [ reflexivity | ].
  split; [ intros H; destruct v; try discriminate H; reflexivity | ].
  split.
  - intros [a H]. destruct v; try discriminate H; reflexivity.
  - intros H. destruct v; try discriminate H; eexists; reflexivity.
Qed.

(** ** Native containers *)

Lemma fold_PushBack {A : Type} (f : A -> Value) (array : list A)
    (l : list Value) :
  fold_left (fun v k => PushBack v (f k)) array (kArray l)
  = kArray (l ++ map f array).
Proof.
  revert l. induction array as [ | k array IH ]; intros l;
    cbn [fold_left map].
  - rewrite app_nil_r. reflexivity.
  - cbn [PushBack]. rewrite IH, <- app_assoc. reflexivity.
Qed.

Lemma fold_AddMember {A : Type} (g : Value -> A -> Value)
    (f : A -> string * Value) (map_ : list A) (m : list (string * Value)) :
  (forall m' k, g (kObject m') k = kObject (m' ++ [f k])) ->
  fold_left g map_ (kObject m) = kObject (m ++ map f map_).
Proof.
  intros Hg. revert m. induction map_ as [ | k map_ IH ]; intros m;
    cbn [fold_left map].
  - rewrite app_nil_r. reflexivity.
  - rewrite Hg, IH, <- app_assoc. reflexivity.
Qed.

Lemma set_container_numbers_array (a : Arith) (old : Value)
    (array : list (arith_native a)) :
  ValueRefMembers.set_container_numbers a old array
  = kArray (map (ValueRefMembers.scalar a) array).
Proof.
  unfold ValueRefMembers.set_container_numbers, SetArray.
  apply (fold_PushBack (ValueRefMembers.scalar a) array []).
Qed.

Lemma set_container_strings_array (old : Value) (array : list string)
    (str_copy : bool) :
  ValueRefMembers.set_container_strings old array str_copy
  = kArray (map (fun k => if str_copy then kString k
                          else kConstString k "") array).
Proof.
  unfold ValueRefMembers.set_container_strings, SetArray.
  destruct str_copy.
  - apply (fold_PushBack kString array []).
  - apply (fold_PushBack (fun k => kConstString k "") array []).
Qed.

(** X18.  A native sequence assigned to a node, whatever the node held, makes it
    an array of as many elements, in the order of the sequence, and the
    strict [get_vector<T>] gives the sequence back: for booleans, for
    doubles, for strings (copied or not), and for integers of a type [T]
    read back as [T]. *)
Theorem set_container_then_get_vector (old : Value) :
  (forall array : list bool,
      ArrayRef.get_vector (TArith TBool)
        (ValueRefMembers.set_container_numbers TBool old array)
      = Some array)
  /\ (forall array : list spec_float,
         ArrayRef.get_vector (TArith TDouble)
           (ValueRefMembers.set_container_numbers TDouble old array)
         = Some array)
  /\ (forall (array : list string) (str_copy : bool),
         ArrayRef.get_vector TString
           (ValueRefMembers.set_container_strings old array str_copy)
         = Some array)
  /\ (forall (t : limits.IntTy) (array : list Z),
         Forall (fun z => limits.in_range t z = true) array ->
         ArrayRef.get_vector (TArith (TInt t))
           (ValueRefMembers.set_container_numbers (TInt t) old array)
         = Some array)
  /\ (forall (a : Arith) (array : list (arith_native a)),
         ArrayRef.size (ValueRefMembers.set_container_numbers a old array)
         = N.of_nat (List.length array)).
Proof.
  assert (G : forall (T : Target) (f : native T -> Value)
                     (array : list (native T)),
             Forall (fun x => ValueRef.get T (f x) = Some x) array ->
             ArrayRef.get_vector T (kArray (map f array)) = Some array).
  { intros T f array H. unfold ArrayRef.get_vector.
    cbn [ArrayRef.elements]. apply get_vector_loop_Some.
    exists array. split; [ reflexivity | ].
    induction H as [ | x array Hx H IH ]; cbn [map]; constructor;
      assumption. }
  repeat match goal with |- _ /\ _ => split end.
  - intros array. rewrite set_container_numbers_array.
    apply (G (TArith TBool) kBool). apply Forall_forall. reflexivity.
  - intros array. rewrite set_container_numbers_array.
    apply (G (TArith TDouble) kNumberDouble). apply Forall_forall.
    reflexivity.
  - intros array str_copy. rewrite set_container_strings_array.
    apply (G TString (fun k => if str_copy then kString k
                               else kConstString k "")).
    apply Forall_forall. intros s _.
    apply get_string_Some.
    destruct str_copy;
      (split;
       [ reflexivity
       | first [ apply bytes_kString | apply bytes_kConstString ] ]).
  - intros t array H. rewrite set_container_numbers_array.
    apply (G (TArith (TInt t)) kNumberInt).
    apply Forall_forall. intros z Hz. cbn [ValueRef.get].
    apply get_integral_Some. split; [ reflexivity | ].
    apply in_range_iff. exact (proj1 (Forall_forall _ _) H z Hz).
  - intros a array. rewrite set_container_numbers_array.
    unfold ArrayRef.size. cbn [Size]. rewrite length_map. reflexivity.
Qed.

Lemma set_container_then_get_vector_witness :
  ArrayRef.get_vector (TArith (TInt limits.Int32))
    (ValueRefMembers.set_container_numbers (TInt limits.Int32) kNull
       [1; 2; 3])
  = Some [1; 2; 3].
Proof.
  apply (set_container_then_get_vector kNull).
  repeat constructor.
Defined.

Lemma set_container_map_object (a : Arith) (old : Value)
    (map_ : list (string * arith_native a)) (str_copy : bool) :
  ValueRefMembers.set_container_map a old map_ str_copy
  = kObject (map (fun k => (fst k, ValueRefMembers.scalar a (snd k))) map_).
Proof.
  unfold ValueRefMembers.set_container_map, SetObject.
  apply (fold_AddMember _
           (fun k => (fst k, ValueRefMembers.scalar a (snd k))) map_ []).
  intros m' k. cbv zeta.
  destruct str_copy;
    rewrite ?bytes_kString, ?bytes_kConstString; reflexivity.
Qed.

Lemma set_container_string_map_object (old : Value)
    (map_ : list (string * string)) (str_copy : bool) :
  ValueRefMembers.set_container_string_map old map_ str_copy
  = kObject (map (fun k => (fst k,
                            if str_copy then kString (snd k)
                            else kConstString (snd k) "")) map_).
Proof.
  unfold ValueRefMembers.set_container_string_map, SetObject.
  apply (fold_AddMember _
           (fun k => (fst k, if str_copy then kString (snd k)
                             else kConstString (snd k) "")) map_ []).
  intros m' k. cbv zeta.
  destruct str_copy;
    rewrite ?bytes_kString, ?bytes_kConstString; reflexivity.
Qed.

(** With names all different, a member is found by its name. *)
Lemma found_unique (m : list (string * Value)) (name : string) (x : Value) :
  NoDup (map fst m) -> In (name, x) m ->
  ObjectRefMembers.found (kObject m) name = Some x.
Proof.
  intros U I.
  assert (K : In name (map fst m)) by (apply (in_map fst m (name, x) I)).
  destruct (first_occurrence m name K) as (pre & y & post & -> & N).
  rewrite (proj1 (found_first pre post name y N)). f_equal.
  apply in_app_or in I. destruct I as [I | [I | I]].
  - exfalso. apply N. apply (in_map fst pre (name, x) I).
  - injection I as ->. reflexivity.
  - exfalso. rewrite map_app in U. cbn [map fst] in U.
    apply NoDup_remove_2 in U. apply U. apply in_or_app. right.
    apply (in_map fst post (name, x) I).
Qed.

(** X19.  A native mapping assigned to a node makes it an object whose members
    are the pairs of the mapping in its iteration order.  The names of a
    mapping being all different, each value is read back by its key:
    [get_value<T>(key)] yields the integer stored under [key] when [T]
    holds it, and the string stored under [key], copied or not. *)
Theorem set_container_then_get_value (old : Value) (str_copy : bool) :
  (forall (t : limits.IntTy) (map_ : list (string * Z)),
      map fst (Members
                 (ValueRefMembers.set_container_map (TInt t) old map_
                    str_copy))
      = map fst map_)
  /\ (forall (t : limits.IntTy) (map_ : list (string * Z)) (key : string)
             (z : Z),
         NoDup (map fst map_) -> In (key, z) map_ ->
         limits.in_range t z = true ->
         ObjectRefMembers.get_value (TArith (TInt t))
           (ValueRefMembers.set_container_map (TInt t) old map_ str_copy)
           key
         = Some z)
  /\ (forall (map_ : list (string * string)) (key s : string),
         NoDup (map fst map_) -> In (key, s) map_ ->
         ObjectRefMembers.get_value TString
           (ValueRefMembers.set_container_string_map old map_ str_copy)
           key
         = Some s)
  /\ (forall (t : limits.IntTy) (map_ : list (string * Z)) (key : string),
         ~ In key (map fst map_) ->
         ObjectRefMembers.get_value (TArith (TInt t))
           (ValueRefMembers.set_container_map (TInt t) old map_ str_copy)
           key
         = None).
Proof.
  split; [ | split; [ | split ] ].
  - intros t map_. rewrite set_container_map_object. cbn [Members].
    rewrite map_map. reflexivity.
  - intros t map_ key z U I R.
    rewrite set_container_map_object, get_value_is_get_of_found.
    rewrite (found_unique _ key (kNumberInt z)).
    + cbn [ValueRef.get]. apply get_integral_Some.
      split; [ reflexivity | apply in_range_iff; exact R ].
    + rewrite map_map. exact U.
    + apply (in_map (fun k => (fst k, ValueRefMembers.scalar (TInt t) (snd k)))
               map_ (key, z) I).
  - intros map_ key s U I.
    rewrite set_container_string_map_object, get_value_is_get_of_found.
    rewrite (found_unique _ key
               (if str_copy then kString s else kConstString s "")).
    + apply get_string_Some.
      destruct str_copy;
        (split;
         [ reflexivity
         | first [ apply bytes_kString | apply bytes_kConstString ] ]).
    + rewrite map_map. exact U.
    + apply (in_map (fun k => (fst k, if str_copy then kString (snd k)
                                      else kConstString (snd k) ""))
               map_ (key, s) I).
  - intros t map_ key H.
    rewrite set_container_map_object, get_value_is_get_of_found.
    rewrite found_absent; [ reflexivity | ].
    rewrite map_map. exact H.
Qed.

Lemma set_container_then_get_value_witness :
  ObjectRefMembers.get_value (TArith (TInt limits.Int32))
    (ValueRefMembers.set_container_map (TInt limits.Int32) kNull
       [("a", 1); ("b", 2)] true) "b"
  = Some 2.
Proof.
  apply (set_container_then_get_value kNull true).
  - repeat constructor; cbn; intuition discriminate.
  - right. left. reflexivity.
  - reflexivity.
Defined.

(** ** Where the strict accessor succeeds, the permissive one agrees *)

Section strict_implies_permissive.

Variable lower_string : string -> string.
Variable strtod : string -> conversion spec_float.
Variable unrepresentable : spec_float -> Z.
Variable to_string_double : spec_float -> string.

#[local] Abbreviation as_ :=
  (ValueRef.as_ lower_string strtod unrepresentable to_string_double).
#[local] Abbreviation as_vector :=
  (ArrayRef.as_vector lower_string strtod unrepresentable to_string_double).

(** X20.  On a node whose integer payload is a 64-bit value, where
    [get<T>] yields a value [as<T>] yields the same one, for [bool],
    [char], every integral type, [double] and [const char*].  For
    [std::string] they agree when the first NUL byte at the pointer is the
    one that ends the bytes of the node, that is when the node holds no NUL
    byte and, if it borrows its bytes, nothing follows them in the buffer;
    on a node that borrows the first two bytes of ["123"] the strict
    accessor yields ["12"] and the permissive one ["123"]. *)
Theorem strict_value_is_permissive_value (T : Target) (n : Value)
    (v : native T) :
  valid_number n = true ->
  reads_alike T = true
  \/ (T = TString /\ strlen (GetString n) = GetStringLength n) ->
  ValueRef.get T n = Some v ->
  as_ T n = v
  /\ ValueRef.get TString (kConstString "12" "3") = Some "12"
  /\ as_ TString (kConstString "12" "3") = "123".
Proof.
  intros V [R | [E C]] G.
  - split; [ apply get_then_as; assumption | split; reflexivity ].
  - subst T.
    split; [ apply get_then_as_string; assumption | split; reflexivity ].
Qed.


End strict_implies_permissive.

Lemma strict_value_is_permissive_value_witness :
  ValueRef.as_ (fun s => s) strtod_C (fun _ => 0) (fun _ => "")
    (TArith (TInt limits.UInt8)) (kNumberInt 200) = 200
  /\ ValueRef.as_ (fun s => s) strtod_C (fun _ => 0) (fun _ => "")
       TString (kConstString "12" "") = "12".
Proof.
  split.
  - apply (strict_value_is_permissive_value (fun s => s) strtod_C
             (fun _ => 0) (fun _ => "") (TArith (TInt limits.UInt8))
             (kNumberInt 200) 200).
    + reflexivity.
    + left. reflexivity.
    + reflexivity.
  - apply (strict_value_is_permissive_value (fun s => s) strtod_C
             (fun _ => 0) (fun _ => "") TString (kConstString "12" "")
             "12").
    + reflexivity.
    + right. split; reflexivity.
    + reflexivity.
Defined.


(** ** An integer rendered as text and read back *)










Section rendered_and_read_back.

Variable lower_string : string -> string.
Variable strtod : string -> conversion spec_float.
Variable unrepresentable : spec_float -> Z.
Variable to_string_double : spec_float -> string.

#[local] Abbreviation as_ :=
  (ValueRef.as_ lower_string strtod unrepresentable to_string_double).


End rendered_and_read_back.

